(** * Computation-graph nodes of hw7-backprop (node_bz.ipynb)

    A shallow embedding of the node classes of the notebook
    [hw/hw7-backprop/code/node_bz.ipynb]: [ValueNode],
    [VectorScalarAffineNode], [SquaredL2DistanceNode], [L2NormPenaltyNode],
    [SumNode] and the two method-less classes [AffineNode] and [TanhNode].

    - Node objects live in a heap (a list indexed by object identity); the
      attributes [x], [w], [a], [b] of an operator node are references into
      that heap, so two consumers of one node share its [d_out].
    - A method is a computation in a state-and-exception monad over the heap.
    - numpy is an external library: its arrays and the operations the
      notebook calls are an interface ([NumPy]); every general theorem holds
      for any implementation of it.  [IntArrays] implements the interface
      for arrays of rank 0 and 1 with integer entries and numpy's
      broadcasting rules, and is used for the concrete scenarios (their
      data are small integers, on which numpy's arithmetic is exact). *)

From Stdlib Require Import ZArith.
From stdpp Require Import base option list strings.

Local Open Scope Z_scope.

(** ** Python exceptions and results *)

Inductive exn : Type :=
| AttributeError
| TypeError
| ValueError.

Inductive result (A : Type) : Type :=
| Ok (a : A)
| Raise (e : exn).
Arguments Ok {A} a.
Arguments Raise {A} e.

Definition rbind {A B : Type} (r : result A) (k : A -> result B) : result B :=
  match r with
  | Ok a => k a
  | Raise e => Raise e
  end.

(** State-and-exception monad of a method call over a state [S]. *)
Definition M (S A : Type) : Type := S -> result (A * S).

Definition ret {S A : Type} (a : A) : M S A := fun h => Ok (a, h).

Definition bind {S A B : Type} (m : M S A) (k : A -> M S B) : M S B :=
  fun h => match m h with
           | Ok (a, h') => k a h'
           | Raise e => Raise e
           end.

Definition raise {S A : Type} (e : exn) : M S A := fun _ => Raise e.

Definition lift {S A : Type} (r : result A) : M S A :=
  fun h => match r with
           | Ok a => Ok (a, h)
           | Raise e => Raise e
           end.

Notation "'let*' x ':=' c 'in' k" := (bind c (fun x => k))
  (at level 10, x name, c at level 100, k at level 200).
Notation "'run' c 'then' k" := (bind c (fun _ => k))
  (at level 10, c at level 100, k at level 200).

(** ** The numpy interface

    Binary operators broadcast and raise [ValueError] on shapes that do not
    broadcast; [np_iadd] is the in-place [+=] of an array, whose result keeps
    the shape of its left operand. *)

Class NumPy : Type := {
  ndarray : Type;
  shape : Type;
  np_shape : ndarray -> shape;                       (* t.shape *)
  np_zeros : shape -> ndarray;                       (* np.zeros(sh) *)
  np_add : ndarray -> ndarray -> result ndarray;     (* s + t *)
  np_sub : ndarray -> ndarray -> result ndarray;     (* s - t *)
  np_mul : ndarray -> ndarray -> result ndarray;     (* s * t *)
  np_iadd : ndarray -> ndarray -> result ndarray;    (* s += t *)
  np_neg : ndarray -> ndarray;                       (* -t *)
  np_mul_int : ndarray -> Z -> ndarray;              (* t * k, k a Python int *)
  np_pow_int : ndarray -> Z -> ndarray;              (* t ** k, k a Python int *)
  np_sum : ndarray -> ndarray;                       (* np.sum(t) *)
  np_dot : ndarray -> ndarray -> result ndarray;     (* np.dot(s, t) *)
  np_shape_zeros : forall sh, np_shape (np_zeros sh) = sh
}.

(** ** Node objects and the heap *)

Abbreviation node_id := nat.

(** A Python value passed to a constructor or held in the list returned by
    [get_predecessors]: a reference to a node, a plain number, or a string. *)
Inductive pyval : Type :=
| VNode (n : node_id)
| VScalar (z : Z)
| VStr (s : string).

(** The class of an object together with the attributes fixed by
    [__init__]. [AffineNode] and [TanhNode] have a docstring only. *)
Inductive node_class : Type :=
| ValueNode
| VectorScalarAffineNode (x w b : node_id)
| SquaredL2DistanceNode (a b : node_id)
| L2NormPenaltyNode (l2_reg : Z) (w : node_id)
| SumNode (a b : node_id)
| AffineNode
| TanhNode.

Section Nodes.
Context `{NP : NumPy}.

(** A Python value held in [out], [d_out] or [a_minus_b]: [None] or an
    array. *)
Definition pyarr : Type := option ndarray.

(** The mutable attributes. [a_minus_b] is an attribute of
    [SquaredL2DistanceNode] only and stays [None] elsewhere. *)
Record node : Type := mkNode {
  node_name : string;
  cls : node_class;
  out : pyarr;
  d_out : pyarr;
  a_minus_b : pyarr
}.

Abbreviation heap := (list node).

(** [__init__] of a class sets [out] and [d_out]; the two classes without
    [__init__] create objects with no attribute at all. *)
Definition has_init (c : node_class) : bool :=
  match c with
  | AffineNode | TanhNode => false
  | _ => true
  end.

(** Reading attribute [f] ([out] or [d_out]) of object [n]: an attribute
    that was never set raises [AttributeError]. *)
Definition getattr (f : node -> pyarr) (n : node_id) : M heap pyarr :=
  fun h => match h !! n with
           | Some nd =>
               match f nd with
               | Some t => Ok (Some t, h)
               | None => if has_init (cls nd) then Ok (None, h)
                         else Raise AttributeError
               end
           | None => Raise AttributeError
           end.

Definition getcls (n : node_id) : M heap node_class :=
  fun h => match h !! n with
           | Some nd => Ok (cls nd, h)
           | None => Raise AttributeError
           end.

Definition set_out (v : pyarr) (nd : node) : node :=
  mkNode (node_name nd) (cls nd) v (d_out nd) (a_minus_b nd).
Definition set_d_out (v : pyarr) (nd : node) : node :=
  mkNode (node_name nd) (cls nd) (out nd) v (a_minus_b nd).
Definition set_a_minus_b (v : pyarr) (nd : node) : node :=
  mkNode (node_name nd) (cls nd) (out nd) (d_out nd) v.

(** Attribute assignment [n.attr = v]. *)
Definition setattr (upd : pyarr -> node -> node) (n : node_id) (v : pyarr) : M heap unit :=
  fun h => match h !! n with
           | Some nd => Ok (tt, <[n := upd v nd]> h)
           | None => Raise AttributeError
           end.

(** An operand of an arithmetic operator: [None] raises [TypeError]. *)
Definition operand (v : pyarr) : result ndarray :=
  match v with
  | Some t => Ok t
  | None => Raise TypeError
  end.

(** [v.shape]: [None] has no such attribute. *)
Definition shape_of (v : pyarr) : result shape :=
  match v with
  | Some t => Ok (np_shape t)
  | None => Raise AttributeError
  end.

(** A binary and a unary numpy operator applied to Python values. A [None]
    operand raises [TypeError], as numpy does whenever the other operand
    has an element; against a zero-length array numpy returns an empty
    array instead, which is not modelled. *)
Definition binop (op : ndarray -> ndarray -> result ndarray) (u v : pyarr) : result pyarr :=
  rbind (operand u) (fun s => rbind (operand v) (fun t => rbind (op s t) (fun r => Ok (Some r)))).

Definition unop (op : ndarray -> ndarray) (u : pyarr) : result pyarr :=
  rbind (operand u) (fun s => Ok (Some (op s))).

(** [p.d_out += v]. *)
Definition iadd_d_out (p : node_id) (v : pyarr) : M heap unit :=
  let* cur := getattr d_out p in
  let* r := lift (binop np_iadd cur v) in
  setattr set_d_out p r.

(** [self.d_out = np.zeros(self.out.shape)]. *)
Definition reset_d_out (self : node_id) : M heap unit :=
  let* o := getattr out self in
  let* sh := lift (shape_of o) in
  setattr set_d_out self (Some (np_zeros sh)).

(** *** [__init__]

    A constructor allocates a fresh object; its identity is the next free
    index of the heap. *)

Definition alloc (nd : node) : M heap node_id :=
  fun h => Ok (length h, h ++ [nd]).

Definition new_ValueNode (name : string) : M heap node_id :=
  alloc (mkNode name ValueNode None None None).

Definition new_VectorScalarAffineNode (x w b : node_id) (name : string) : M heap node_id :=
  alloc (mkNode name (VectorScalarAffineNode x w b) None None None).

Definition new_SquaredL2DistanceNode (a b : node_id) (name : string) : M heap node_id :=
  alloc (mkNode name (SquaredL2DistanceNode a b) None None None).

(** [self.l2_reg = np.array(l2_reg)] is overwritten by [self.l2_reg = l2_reg]
    later in the same [__init__]: the attribute holds the plain number. *)
Definition new_L2NormPenaltyNode (l2_reg : Z) (w : node_id) (name : string) : M heap node_id :=
  alloc (mkNode name (L2NormPenaltyNode l2_reg w) None None None).

Definition new_SumNode (a b : node_id) (name : string) : M heap node_id :=
  alloc (mkNode name (SumNode a b) None None None).

(** [AffineNode] and [TanhNode] inherit [object.__init__], which accepts no
    argument: [AffineNode(W, x, b, name)] raises [TypeError], and
    [AffineNode()] yields an object without attributes. *)
Definition new_AffineNode (args : list pyval) : M heap node_id :=
  match args with
  | [] => alloc (mkNode EmptyString AffineNode None None None)
  | _ :: _ => raise TypeError
  end.

Definition new_TanhNode (args : list pyval) : M heap node_id :=
  match args with
  | [] => alloc (mkNode EmptyString TanhNode None None None)
  | _ :: _ => raise TypeError
  end.

(** *** [forward] *)

Definition forward (self : node_id) : M heap pyarr :=
  let* c := getcls self in
  match c with
  | ValueNode =>
      (* self.d_out = np.zeros(self.out.shape); return self.out *)
      run reset_d_out self then
      getattr out self
  | VectorScalarAffineNode x w b =>
      (* self.out = np.dot(self.x.out, self.w.out) + self.b.out *)
      let* xo := getattr out x in
      let* wo := getattr out w in
      let* d := lift (binop np_dot xo wo) in
      let* bo := getattr out b in
      let* r := lift (binop np_add d bo) in
      run setattr set_out self r then
      (* self.d_out = np.zeros(self.out.shape); return self.out *)
      run reset_d_out self then
      getattr out self
  | SquaredL2DistanceNode a b =>
      (* self.a_minus_b = self.a.out - self.b.out *)
      let* ao := getattr out a in
      let* bo := getattr out b in
      let* d := lift (binop np_sub ao bo) in
      run setattr set_a_minus_b self d then
      (* self.out = np.sum(self.a_minus_b ** 2) *)
      let* c := getattr a_minus_b self in
      let* sq := lift (unop (fun t => np_pow_int t 2) c) in
      let* r := lift (unop np_sum sq) in
      run setattr set_out self r then
      (* self.d_out = np.zeros(self.out.shape); return self.out *)
      run reset_d_out self then
      getattr out self
  | L2NormPenaltyNode l2_reg w =>
      (* self.out = np.sum(self.w.out ** 2) *)
      let* wo := getattr out w in
      let* sq := lift (unop (fun t => np_pow_int t 2) wo) in
      let* r := lift (unop np_sum sq) in
      run setattr set_out self r then
      (* self.d_out = np.zeros(self.out.shape); return self.out *)
      run reset_d_out self then
      getattr out self
  | SumNode a b =>
      (* self.out = self.a.out + self.b.out *)
      let* ao := getattr out a in
      let* bo := getattr out b in
      let* r := lift (binop np_add ao bo) in
      run setattr set_out self r then
      (* self.d_out = np.zeros(self.out.shape); return self.out *)
      run reset_d_out self then
      getattr out self
  | AffineNode | TanhNode =>
      (* the class defines no such method *)
      raise AttributeError
  end.

(** *** [backward] *)

Definition backward (self : node_id) : M heap pyarr :=
  let* c := getcls self in
  match c with
  | ValueNode =>
      (* pass *)
      ret None
  | VectorScalarAffineNode x w b =>
      (* d_x = self.d_out * self.w.out *)
      let* g := getattr d_out self in
      let* wo := getattr out w in
      let* d_x := lift (binop np_mul g wo) in
      (* d_w = self.d_out * self.x.out *)
      let* g := getattr d_out self in
      let* xo := getattr out x in
      let* d_w := lift (binop np_mul g xo) in
      (* d_b = self.d_out *)
      let* d_b := getattr d_out self in
      (* self.x.d_out += d_x; self.w.d_out += d_w; self.b.d_out += d_b *)
      run iadd_d_out x d_x then
      run iadd_d_out w d_w then
      run iadd_d_out b d_b then
      ret None
  | SquaredL2DistanceNode a b =>
      (* d_a = self.d_out * 2 * self.a_minus_b *)
      let* g := getattr d_out self in
      let* g2 := lift (unop (fun t => np_mul_int t 2) g) in
      let* c := getattr a_minus_b self in
      let* d_a := lift (binop np_mul g2 c) in
      (* d_b = -self.d_out * 2 * self.a_minus_b *)
      let* g := getattr d_out self in
      let* ng := lift (unop np_neg g) in
      let* ng2 := lift (unop (fun t => np_mul_int t 2) ng) in
      let* c := getattr a_minus_b self in
      let* d_b := lift (binop np_mul ng2 c) in
      (* self.a.d_out += d_a; self.b.d_out += d_b; return self.d_out *)
      run iadd_d_out a d_a then
      run iadd_d_out b d_b then
      getattr d_out self
  | L2NormPenaltyNode l2_reg w =>
      (* d_w = self.d_out * 2 * self.w.out *)
      let* g := getattr d_out self in
      let* g2 := lift (unop (fun t => np_mul_int t 2) g) in
      let* wo := getattr out w in
      let* d_w := lift (binop np_mul g2 wo) in
      (* self.w.d_out += d_w; return self.d_out *)
      run iadd_d_out w d_w then
      getattr d_out self
  | SumNode a b =>
      (* d_a = self.d_out; d_b = self.d_out *)
      let* d_a := getattr d_out self in
      let* d_b := getattr d_out self in
      (* self.a.d_out += d_a; self.b.d_out += d_b; return self.d_out *)
      run iadd_d_out a d_a then
      run iadd_d_out b d_b then
      getattr d_out self
  | AffineNode | TanhNode =>
      (* the class defines no such method *)
      raise AttributeError
  end.

(** *** [get_predecessors]

    The list depends on the attributes fixed by [__init__] only; the
    [L2NormPenaltyNode] returns [[self.w, self.l2_reg]]. *)

Definition get_predecessors (c : node_class) : result (list pyval) :=
  match c with
  | ValueNode => Ok []
  | VectorScalarAffineNode x w b => Ok [VNode x; VNode w; VNode b]
  | SquaredL2DistanceNode a b => Ok [VNode a; VNode b]
  | L2NormPenaltyNode l2_reg w => Ok [VNode w; VScalar l2_reg]
  | SumNode a b => Ok [VNode a; VNode b]
  | AffineNode | TanhNode => Raise AttributeError
  end.

(** The node-valued entries of the predecessor list. *)
Definition pred_nodes (c : node_class) : list node_id :=
  match c with
  | ValueNode | AffineNode | TanhNode => []
  | VectorScalarAffineNode x w b => [x; w; b]
  | SquaredL2DistanceNode a b => [a; b]
  | L2NormPenaltyNode _ w => [w]
  | SumNode a b => [a; b]
  end.

(** ** One evaluation cycle *)

(** Modelled from the spec: the graph driver, which is not part of the
    notebook. Following section 4.2 of the specification it runs [forward]
    on every node of a given order, seeds [d_out] of the output node, and
    runs [backward] in the reverse order. The order, the output node and
    the seed are parameters; the methods called are the ones above. *)
Fixpoint forward_pass (ns : list node_id) : M heap unit :=
  match ns with
  | [] => ret tt
  | n :: ns' => run forward n then forward_pass ns'
  end.

(** Modelled from the spec: [backward] on each node of [ns] in turn. *)
Fixpoint backward_pass (ns : list node_id) : M heap unit :=
  match ns with
  | [] => ret tt
  | n :: ns' => run backward n then backward_pass ns'
  end.

(** Modelled from the spec: one cycle over the order [ns] with output node
    [o], seeded with the array [seed] (a fresh array in every cycle). *)
Definition run_cycle (ns : list node_id) (o : node_id) (seed : ndarray) : M heap unit :=
  run forward_pass ns then
  run setattr set_d_out o (Some seed) then
  backward_pass (rev ns).

(** ** Functional reading of the methods

    What [forward] and [backward] compute, as functions of the heap they
    start from; [forward_eq] and [backward_eq] below prove that the methods
    are these functions. *)

(** The value of [n.attr] in heap [h]. *)
Definition peek (f : node -> pyarr) (h : heap) (n : node_id) : result pyarr :=
  match h !! n with
  | Some nd =>
      match f nd with
      | Some t => Ok (Some t)
      | None => if has_init (cls nd) then Ok None else Raise AttributeError
      end
  | None => Raise AttributeError
  end.

(** The new [out] and [a_minus_b] of object [nd] after [forward]. *)
Definition forward_value (h : heap) (nd : node) : result (ndarray * pyarr) :=
  match cls nd with
  | ValueNode =>
      match out nd with
      | Some t => Ok (t, a_minus_b nd)
      | None => Raise AttributeError
      end
  | VectorScalarAffineNode x w b =>
      rbind (peek out h x) (fun xo =>
      rbind (peek out h w) (fun wo =>
      rbind (binop np_dot xo wo) (fun d =>
      rbind (peek out h b) (fun bo =>
      rbind (operand d) (fun d' =>
      rbind (operand bo) (fun bo' =>
      rbind (np_add d' bo') (fun t => Ok (t, a_minus_b nd))))))))
  | SquaredL2DistanceNode a b =>
      rbind (peek out h a) (fun ao =>
      rbind (peek out h b) (fun bo =>
      rbind (operand ao) (fun ao' =>
      rbind (operand bo) (fun bo' =>
      rbind (np_sub ao' bo') (fun d =>
      Ok (np_sum (np_pow_int d 2), Some d))))))
  | L2NormPenaltyNode _ w =>
      rbind (peek out h w) (fun wo =>
      rbind (operand wo) (fun wo' =>
      Ok (np_sum (np_pow_int wo' 2), a_minus_b nd)))
  | SumNode a b =>
      rbind (peek out h a) (fun ao =>
      rbind (peek out h b) (fun bo =>
      rbind (operand ao) (fun ao' =>
      rbind (operand bo) (fun bo' =>
      rbind (np_add ao' bo') (fun t => Ok (t, a_minus_b nd))))))
  | AffineNode | TanhNode => Raise AttributeError
  end.

(** The object [nd] after a [forward] that computed [o] and cached [am]. *)
Definition forwarded (nd : node) (o : ndarray) (am : pyarr) : node :=
  mkNode (node_name nd) (cls nd) (Some o) (Some (np_zeros (np_shape o))) am.

(** The summands [backward] computes, each with the predecessor it is added
    to, in the order of the [+=] statements. For every class this is
    [d_out] times the derivative of the value the class's own [forward]
    computes: [d_out * w], [d_out * x], [d_out] for the affine node,
    [d_out * 2 * a_minus_b] and [-d_out * 2 * a_minus_b] for the squared
    distance, [d_out * 2 * w] for the norm penalty, [d_out] twice for the
    sum. *)
Definition local_contributions (h : heap) (nd : node) : result (list (node_id * pyarr)) :=
  match cls nd with
  | ValueNode => Ok []
  | VectorScalarAffineNode x w b =>
      rbind (peek out h w) (fun wo =>
      rbind (binop np_mul (d_out nd) wo) (fun d_x =>
      rbind (peek out h x) (fun xo =>
      rbind (binop np_mul (d_out nd) xo) (fun d_w =>
      Ok [(x, d_x); (w, d_w); (b, d_out nd)]))))
  | SquaredL2DistanceNode a b =>
      rbind (unop (fun t => np_mul_int t 2) (d_out nd)) (fun g2 =>
      rbind (binop np_mul g2 (a_minus_b nd)) (fun d_a =>
      rbind (unop np_neg (d_out nd)) (fun ng =>
      rbind (unop (fun t => np_mul_int t 2) ng) (fun ng2 =>
      rbind (binop np_mul ng2 (a_minus_b nd)) (fun d_b =>
      Ok [(a, d_a); (b, d_b)])))))
  | L2NormPenaltyNode _ w =>
      rbind (unop (fun t => np_mul_int t 2) (d_out nd)) (fun g2 =>
      rbind (peek out h w) (fun wo =>
      rbind (binop np_mul g2 wo) (fun d_w =>
      Ok [(w, d_w)])))
  | SumNode a b => Ok [(a, d_out nd); (b, d_out nd)]
  | AffineNode | TanhNode => Raise AttributeError
  end.

(** The [+=] statements of [backward], one after the other. *)
Fixpoint accumulate (cs : list (node_id * pyarr)) : M heap unit :=
  match cs with
  | [] => ret tt
  | (p, v) :: cs' => run iadd_d_out p v then accumulate cs'
  end.

(** What [backward] returns: nothing for the first two classes, [self.d_out]
    for the others. *)
Definition backward_return (c : node_class) (self : node_id) : M heap pyarr :=
  match c with
  | ValueNode | VectorScalarAffineNode _ _ _ => ret None
  | SquaredL2DistanceNode _ _ | L2NormPenaltyNode _ _ | SumNode _ _ => getattr d_out self
  | AffineNode | TanhNode => raise AttributeError
  end.

(** The summands of [cs] that go to predecessor [p]. *)
Fixpoint summands (p : node_id) (cs : list (node_id * pyarr)) : list pyarr :=
  match cs with
  | [] => []
  | (q, v) :: cs' => if Nat.eqb q p then v :: summands p cs' else summands p cs'
  end.

(** [cur += v] for each [v] of [vs] in turn. *)
Definition add_all (cur : result pyarr) (vs : list pyarr) : result pyarr :=
  foldl (fun acc v => rbind acc (fun c => binop np_iadd c v)) cur vs.

(** [ns] lists nodes without repetition, each after all its predecessors,
    given that the nodes of [seen] have been listed before. *)
Fixpoint topo_order (h : heap) (seen ns : list node_id) : bool :=
  match ns with
  | [] => true
  | n :: ns' =>
      negb (existsb (Nat.eqb n) seen)
      && match h !! n with
         | Some nd => forallb (fun p => existsb (Nat.eqb p) seen) (pred_nodes (cls nd))
         | None => false
         end
      && topo_order h (n :: seen) ns'
  end.

(** [forward] on [n] returns and leaves heap [h] as it is. *)
Definition settled (n : node_id) (h : heap) : Prop :=
  exists r, forward n h = Ok (r, h).

(** The nodes of [seen] are settled and have their predecessors in [seen]. *)
Definition good (seen : list node_id) (h : heap) : Prop :=
  forall m, m ∈ seen ->
    settled m h /\
    forall nd, h !! m = Some nd -> forall p, p ∈ pred_nodes (cls nd) -> p ∈ seen.

(** Two heaps hold objects of the same classes. *)
Definition same_classes (h h' : heap) : Prop :=
  forall m, cls <$> h !! m = cls <$> h' !! m.

(** Two heaps hold the same objects, up to [d_out] of the objects in [D]. *)
Definition same_but_d_out (D : node_id -> Prop) (h h' : heap) : Prop :=
  length h = length h' /\
  forall m nd nd', h !! m = Some nd -> h' !! m = Some nd' ->
    node_name nd = node_name nd' /\ cls nd = cls nd' /\ out nd = out nd' /\
    a_minus_b nd = a_minus_b nd' /\ (~ D m -> d_out nd = d_out nd').

(** Heap [h'] holds the objects of [h] with their names and classes, and
    every [ValueNode] with the [out] it has in [h]. *)
Definition same_leaves (h h' : heap) : Prop :=
  length h' = length h /\
  forall p nd, h !! p = Some nd ->
    exists nd', h' !! p = Some nd' /\ node_name nd' = node_name nd /\
                cls nd' = cls nd /\ (cls nd = ValueNode -> out nd' = out nd).

End Nodes.

Abbreviation heap := (list node).

(** ** Integer arrays of rank 0 and 1

    [Scalar v] is a 0-dimensional array, [Vector l] a 1-dimensional one.
    The operations follow numpy's broadcasting: a scalar stretches over a
    vector, two vectors combine when their lengths agree or one of them has
    length 1. 
    Entries are exact integers. numpy computes [out] in int64 and every
    [d_out] in float64; both agree with exact integers while all values
    stay integers of magnitude below 2^53, which the bound [small] below
    guarantees for the statements about values. *)

Inductive intarr : Type :=
| Scalar (v : Z)
| Vector (l : list Z).

Inductive ishape : Type :=
| Shape0                (* () *)
| Shape1 (n : nat).     (* (n,) *)

Definition ia_shape (t : intarr) : ishape :=
  match t with
  | Scalar _ => Shape0
  | Vector l => Shape1 (length l)
  end.

Definition ia_zeros (sh : ishape) : intarr :=
  match sh with
  | Shape0 => Scalar 0
  | Shape1 n => Vector (replicate n 0)
  end.

Definition ia_broadcast (f : Z -> Z -> Z) (s t : intarr) : result intarr :=
  match s, t with
  | Scalar a, Scalar b => Ok (Scalar (f a b))
  | Scalar a, Vector l => Ok (Vector (map (f a) l))
  | Vector l, Scalar b => Ok (Vector (map (fun x => f x b) l))
  | Vector l1, Vector l2 =>
      if Nat.eqb (length l1) (length l2) then Ok (Vector (zip_with f l1 l2))
      else match l1, l2 with
           | [a], _ => Ok (Vector (map (f a) l2))
           | _, [b] => Ok (Vector (map (fun x => f x b) l1))
           | _, _ => Raise ValueError
           end
  end.

(** In-place addition: the right operand must broadcast to the shape of the
    left one. *)
Definition ia_iadd (s t : intarr) : result intarr :=
  match s, t with
  | Scalar a, Scalar b => Ok (Scalar (a + b))
  | Scalar _, Vector _ => Raise ValueError
  | Vector l, Scalar b => Ok (Vector (map (fun x => x + b) l))
  | Vector l1, Vector l2 =>
      if Nat.eqb (length l1) (length l2) then Ok (Vector (zip_with Z.add l1 l2))
      else match l2 with
           | [b] => Ok (Vector (map (fun x => x + b) l1))
           | _ => Raise ValueError
           end
  end.

Definition ia_map (f : Z -> Z) (t : intarr) : intarr :=
  match t with
  | Scalar a => Scalar (f a)
  | Vector l => Vector (map f l)
  end.

Definition zsum (l : list Z) : Z := foldr Z.add 0 l.

Definition ia_sum (t : intarr) : intarr :=
  match t with
  | Scalar a => Scalar a
  | Vector l => Scalar (zsum l)
  end.

(** [np.dot]: a product when an operand is 0-dimensional, the inner product
    of two vectors of one length, [ValueError] otherwise. *)
Definition ia_dot (s t : intarr) : result intarr :=
  match s, t with
  | Vector l1, Vector l2 =>
      if Nat.eqb (length l1) (length l2) then Ok (Scalar (zsum (zip_with Z.mul l1 l2)))
      else Raise ValueError
  | _, _ => ia_broadcast Z.mul s t
  end.

Definition ia_shape_zeros (sh : ishape) : ia_shape (ia_zeros sh) = sh :=
  match sh with
  | Shape0 => eq_refl
  | Shape1 n => f_equal Shape1 (length_replicate n 0)
  end.

#[export] Instance IntArrays : NumPy := {|
  ndarray := intarr;
  shape := ishape;
  np_shape := ia_shape;
  np_zeros := ia_zeros;
  np_add := ia_broadcast Z.add;
  np_sub := ia_broadcast Z.sub;
  np_mul := ia_broadcast Z.mul;
  np_iadd := ia_iadd;
  np_neg := ia_map Z.opp;
  np_mul_int := fun t k => ia_map (fun x => x * k) t;
  np_pow_int := fun t k => ia_map (fun x => x ^ k) t;
  np_sum := ia_sum;
  np_dot := ia_dot;
  np_shape_zeros := ia_shape_zeros
|}.

(** ** Concrete graphs over [IntArrays] *)

(** Leaves [a = [1,2,3]], [b = [4,5,7]] and [d = SquaredL2Distance(a, b)];
    [forward] on [a], [b], [d], seed [d.d_out = 1], [backward] on [d].
    Returns [d.out] as read after the forward calls, and [a.d_out] and
    [b.d_out] as read after [backward]. *)
Definition squared_distance_scenario : M heap (pyarr * pyarr * pyarr) :=
  let* a := new_ValueNode "a" in
  let* b := new_ValueNode "b" in
  let* d := new_SquaredL2DistanceNode a b "d" in
  run setattr set_out a (Some (Vector [1; 2; 3])) then
  run setattr set_out b (Some (Vector [4; 5; 7])) then
  run forward a then
  run forward b then
  run forward d then
  let* o := getattr out d in
  run setattr set_d_out d (Some (Scalar 1)) then
  run backward d then
  let* ga := getattr d_out a in
  let* gb := getattr d_out b in
  ret (o, ga, gb).

(** Leaves [x = [1,0]], [w = [2,3]], [b = 5] and
    [f = VectorScalarAffine(x, w, b)]; [forward] on all, seed [f.d_out = 1],
    [backward] on [f]. Returns [f.out], [x.d_out], [w.d_out], [b.d_out]. *)
Definition affine_scenario : M heap (pyarr * pyarr * pyarr * pyarr) :=
  let* x := new_ValueNode "x" in
  let* w := new_ValueNode "w" in
  let* b := new_ValueNode "b" in
  let* f := new_VectorScalarAffineNode x w b "f" in
  run setattr set_out x (Some (Vector [1; 0])) then
  run setattr set_out w (Some (Vector [2; 3])) then
  run setattr set_out b (Some (Scalar 5)) then
  run forward x then
  run forward w then
  run forward b then
  run forward f then
  let* o := getattr out f in
  run setattr set_d_out f (Some (Scalar 1)) then
  run backward f then
  let* gx := getattr d_out x in
  let* gw := getattr d_out w in
  let* gb := getattr d_out b in
  ret (o, gx, gw, gb).

(** A leaf [w] with the given value and [reg = L2NormPenalty(l2_reg, w)];
    [forward] on both, seed [reg.d_out = 1], [backward] on [reg]. Returns
    what [forward] on [reg] returned, [reg.out] and [w.d_out]. *)
Definition l2_penalty_scenario (l2_reg : Z) (w_out : list Z) : M heap (pyarr * pyarr * pyarr) :=
  let* w := new_ValueNode "w" in
  let* reg := new_L2NormPenaltyNode l2_reg w "reg" in
  run setattr set_out w (Some (Vector w_out)) then
  run forward w then
  let* r := forward reg in
  let* o := getattr out reg in
  run setattr set_d_out reg (Some (Scalar 1)) then
  run backward reg then
  let* gw := getattr d_out w in
  ret (r, o, gw).

(** [AffineNode(W, x, b, "affine")] on three leaves. *)
Definition affine_node_construction : M heap node_id :=
  let* W := new_ValueNode "W" in
  let* x := new_ValueNode "x" in
  let* b := new_ValueNode "b" in
  new_AffineNode [VNode W; VNode x; VNode b; VStr "affine"].

(** Ridge regression on one example: [pred = VectorScalarAffine(x, w, b)],
    [loss = SquaredL2Distance(pred, y)], [reg = L2NormPenalty(1, w)],
    [obj = Sum(loss, reg)]. The leaf [w] has two consumers, [pred] and
    [reg]. Objects 0 to 7 are [x], [w], [b], [y], [pred], [loss], [reg],
    [obj]. *)
Definition ridge_build : M heap unit :=
  let* x := new_ValueNode "x" in
  let* w := new_ValueNode "w" in
  let* b := new_ValueNode "b" in
  let* y := new_ValueNode "y" in
  let* pred := new_VectorScalarAffineNode x w b "pred" in
  let* loss := new_SquaredL2DistanceNode pred y "loss" in
  let* reg := new_L2NormPenaltyNode 1 w "reg" in
  let* obj := new_SumNode loss reg "obj" in
  run setattr set_out x (Some (Vector [1; 0])) then
  run setattr set_out w (Some (Vector [2; 3])) then
  run setattr set_out b (Some (Scalar 5)) then
  setattr set_out y (Some (Scalar 6)).

Definition heap_of {A : Type} (r : result (A * heap)) : heap :=
  match r with
  | Ok (_, h) => h
  | Raise _ => []
  end.

Definition ridge_heap : heap := Eval vm_compute in heap_of (ridge_build []).

Definition ridge_order : list node_id := [0; 1; 2; 3; 4; 5; 6; 7]%nat.

(** The ridge graph after one cycle. *)
Definition ridge_cycled : heap :=
  Eval vm_compute in heap_of (run_cycle ridge_order 7%nat (Scalar 1) ridge_heap).

(** The ridge graph after [forward] on every node, the seed, and [backward]
    on [obj] and [loss]; then after [backward] on [reg]; then after
    [backward] on [pred]. *)
Definition ridge_before : heap :=
  Eval vm_compute in
    heap_of ((run forward_pass ridge_order then
              run setattr set_d_out 7%nat (Some (Scalar 1)) then
              run backward 7%nat then backward 5%nat) ridge_heap).
(** The objects [reg] and [pred] of [ridge_before]. *)
Definition ridge_reg : node :=
  mkNode (NP:=IntArrays) "reg" (L2NormPenaltyNode 1 1) (Some (Scalar 13)) (Some (Scalar 1)) None.
Definition ridge_pred : node :=
  mkNode (NP:=IntArrays) "pred" (VectorScalarAffineNode 0 1 2) (Some (Scalar 7)) (Some (Scalar 2)) None.
Definition ridge_after_reg : heap := Eval vm_compute in heap_of (backward 6%nat ridge_before).
Definition ridge_after_pred : heap := Eval vm_compute in heap_of (backward 4%nat ridge_after_reg).

(** Leaves [a = [1,2,3]], [b = [4,5,7]] and [d = SquaredL2Distance(a, b)],
    before [forward] on [d]; after it; and after it with [a.out] and
    [b.out] overwritten and [d.d_out] seeded with 1. *)
Definition dist_d : node :=
  mkNode (NP:=IntArrays) "d" (SquaredL2DistanceNode 0 1) None None None.
Definition dist_heap : heap :=
  [ mkNode "a" ValueNode (Some (Vector [1; 2; 3])) (Some (Vector [0; 0; 0])) None;
    mkNode "b" ValueNode (Some (Vector [4; 5; 7])) (Some (Vector [0; 0; 0])) None;
    dist_d ].
(** The object [d] after [forward], and seeded. *)
Definition dist_d_forwarded : node :=
  mkNode (NP:=IntArrays) "d" (SquaredL2DistanceNode 0 1) (Some (Scalar 34)) (Some (Scalar 0))
    (Some (Vector [-3; -3; -4])).
Definition dist_d_seeded : node :=
  mkNode (NP:=IntArrays) "d" (SquaredL2DistanceNode 0 1) (Some (Scalar 34)) (Some (Scalar 1))
    (Some (Vector [-3; -3; -4])).
Definition dist_forwarded : heap := Eval vm_compute in heap_of (forward 2%nat dist_heap).
Definition dist_mutated : heap :=
  Eval vm_compute in
    heap_of ((run setattr set_out 0%nat (Some (Vector [10; 20; 30])) then
              run setattr set_out 1%nat (Some (Vector [0; 0; 0])) then
              setattr set_d_out 2%nat (Some (Scalar 1))) dist_forwarded).
Definition dist_backwarded : heap := Eval vm_compute in heap_of (backward 2%nat dist_mutated).

(** A leaf with two consumers of which one feeds the other: leaves [w] and
    [u], [s1 = Sum(w, u)] and [s2 = Sum(s1, w)], objects 0 to 3. The heap
    after [forward] on all four and the seed [s2.d_out = [1,1]]; then after
    [backward] on [s2]; then after [backward] on [s1]. *)
Definition skip_build : M heap unit :=
  let* w := new_ValueNode "w" in
  let* u := new_ValueNode "u" in
  let* s1 := new_SumNode w u "s1" in
  let* s2 := new_SumNode s1 w "s2" in
  run setattr set_out w (Some (Vector [5; 6])) then
  run setattr set_out u (Some (Vector [7; 8])) then
  run forward_pass [w; u; s1; s2] then
  setattr set_d_out s2 (Some (Vector [1; 1])).
Definition skip_before : heap := Eval vm_compute in heap_of (skip_build []).
Definition skip_after_s2 : heap := Eval vm_compute in heap_of (backward 3%nat skip_before).
Definition skip_after_s1 : heap := Eval vm_compute in heap_of (backward 2%nat skip_after_s2).
(** The object [s2] in [skip_before] and the object [s1] in
    [skip_after_s2]. *)
Definition skip_s2 : node :=
  mkNode (NP:=IntArrays) "s2" (SumNode 2 0) (Some (Vector [17; 20])) (Some (Vector [1; 1])) None.
Definition skip_s1 : node :=
  mkNode (NP:=IntArrays) "s1" (SumNode 0 1) (Some (Vector [12; 14])) (Some (Vector [1; 1])) None.

(** ** Scenarios over arbitrary arrays *)

(** The data the statements about values range over: lists of at most
    65536 entries, each between -65536 and 65536. On such data every value
    the four operator classes compute, from the inputs or from inputs
    shifted by such data, is an integer of magnitude below 2^53, so numpy's
    int64 and float64 arithmetic is exact and agrees with [IntArrays]. *)
Definition small_entry (z : Z) : bool := (-65536 <=? z) && (z <=? 65536).
Definition small (l : list Z) : bool :=
  (Z.of_nat (length l) <=? 65536) && forallb small_entry l.
Definition small_array (v : option intarr) : bool :=
  match v with
  | None => true
  | Some (Scalar z) => small_entry z
  | Some (Vector l) => small l
  end.
(** Every array held by an object of the heap is small. *)
Definition heap_small (h : list (node (NP:=IntArrays))) : bool :=
  forallb (fun nd => small_array (out nd) && small_array (d_out nd)
                     && small_array (a_minus_b nd)) h.

(** An array with at least one element: a 0-dimensional array, or a vector
    that is not empty. *)
Definition ia_nonempty (t : intarr) : bool :=
  match t with
  | Scalar _ => true
  | Vector l => negb (Nat.eqb (length l) 0)
  end.

(** Leaves [a], never assigned, and [b = [1,2]] under [s = SumNode(a, b)];
    [forward] has run on [b]. *)
Definition unset_sum : node := mkNode (NP:=IntArrays) "s" (SumNode 0 1) None None None.
Definition unset_heap : heap :=
  [ mkNode "a" ValueNode None None None;
    mkNode "b" ValueNode (Some (Vector [1; 2])) (Some (Vector [0; 0])) None;
    unset_sum ].

(** Inner product, sum of squares and elementwise sum of integer lists. *)
Definition dot (l1 l2 : list Z) : Z := zsum (zip_with Z.mul l1 l2).
Definition sqnorm (l : list Z) : Z := zsum (map (fun x => x ^ 2) l).
Definition vadd (l1 l2 : list Z) : list Z := zip_with Z.add l1 l2.

(** [squared_distance_scenario] with the values of the two leaves as
    parameters. *)
Definition squared_distance_run (a_out b_out : intarr) : M heap (pyarr * pyarr * pyarr) :=
  let* a := new_ValueNode "a" in
  let* b := new_ValueNode "b" in
  let* d := new_SquaredL2DistanceNode a b "d" in
  run setattr set_out a (Some a_out) then
  run setattr set_out b (Some b_out) then
  run forward a then
  run forward b then
  run forward d then
  let* o := getattr out d in
  run setattr set_d_out d (Some (Scalar 1)) then
  run backward d then
  let* ga := getattr d_out a in
  let* gb := getattr d_out b in
  ret (o, ga, gb).

(** [affine_scenario] with the values of the three leaves as parameters. *)
Definition affine_run (x_out w_out b_out : intarr) : M heap (pyarr * pyarr * pyarr * pyarr) :=
  let* x := new_ValueNode "x" in
  let* w := new_ValueNode "w" in
  let* b := new_ValueNode "b" in
  let* f := new_VectorScalarAffineNode x w b "f" in
  run setattr set_out x (Some x_out) then
  run setattr set_out w (Some w_out) then
  run setattr set_out b (Some b_out) then
  run forward x then
  run forward w then
  run forward b then
  run forward f then
  let* o := getattr out f in
  run setattr set_d_out f (Some (Scalar 1)) then
  run backward f then
  let* gx := getattr d_out x in
  let* gw := getattr d_out w in
  let* gb := getattr d_out b in
  ret (o, gx, gw, gb).

(** Leaves [a] and [b] under [s = SumNode(a, b)]: [forward] on all three;
    returns [s.out]. *)
Definition sum_forward_run (a_out b_out : intarr) : M heap pyarr :=
  let* a := new_ValueNode "a" in
  let* b := new_ValueNode "b" in
  let* s := new_SumNode a b "s" in
  run setattr set_out a (Some a_out) then
  run setattr set_out b (Some b_out) then
  run forward a then
  run forward b then
  forward s.

(** The same, followed by the seed [s.d_out = seed] and [backward] on [s];
    returns [s.out], [a.d_out] and [b.d_out]. *)
Definition sum_run (a_out b_out seed : intarr) : M heap (pyarr * pyarr * pyarr) :=
  let* a := new_ValueNode "a" in
  let* b := new_ValueNode "b" in
  let* s := new_SumNode a b "s" in
  run setattr set_out a (Some a_out) then
  run setattr set_out b (Some b_out) then
  run forward a then
  run forward b then
  run forward s then
  let* o := getattr out s in
  run setattr set_d_out s (Some seed) then
  run backward s then
  let* ga := getattr d_out a in
  let* gb := getattr d_out b in
  ret (o, ga, gb).

(** The notebook's test cell: [a_minus_b = testb - testa] and then
    [np.dot(a_minus_b, a_minus_b)]. *)
Definition test_cell (testa testb : intarr) : result intarr :=
  rbind (np_sub testb testa) (fun a_minus_b => np_dot a_minus_b a_minus_b).

(** The right operand [t] of an in-place addition, broadcast to length [n]:
    a scalar and a vector of length 1 are repeated, a vector of length [n]
    is taken as it is, any other vector does not fit. *)
Definition stretch (n : nat) (t : intarr) : option (list Z) :=
  match t with
  | Scalar b => Some (replicate n b)
  | Vector l =>
      if Nat.eqb n (length l) then Some l
      else match l with
           | [b] => Some (replicate n b)
           | _ => None
           end
  end.

(** [dist_forwarded] after the seed [d.d_out = 1] and [backward] on [d]. *)
Definition dist_cycled : heap :=
  Eval vm_compute in
    heap_of ((run setattr set_d_out 2%nat (Some (Scalar 1)) then backward 2%nat)
               dist_forwarded).

(** The ridge graph after [forward] on its four leaves; then after [forward]
    on [pred]; then after [forward] on [reg] as well. *)
Definition ridge_leaves : heap :=
  Eval vm_compute in heap_of (forward_pass [0; 1; 2; 3]%nat ridge_heap).
Definition ridge_leaves_pred : heap := Eval vm_compute in heap_of (forward 4%nat ridge_leaves).
Definition ridge_leaves_pred_reg : heap :=
  Eval vm_compute in heap_of (forward 6%nat ridge_leaves_pred).
Definition ridge_pred_new : node :=
  mkNode (NP:=IntArrays) "pred" (VectorScalarAffineNode 0 1 2) None None None.
Definition ridge_reg_new : node :=
  mkNode (NP:=IntArrays) "reg" (L2NormPenaltyNode 1 1) None None None.

(** Wherever an object has both [out] and [d_out], their shapes agree. *)
Definition shapes_agree (h : heap) : Prop :=
  forall m nd o g, h !! m = Some nd -> out nd = Some o -> d_out nd = Some g ->
    ia_shape g = ia_shape o.

(** Evaluation of a scenario on symbolic lists: everything is computed but
    the arithmetic on the entries. *)
Ltac arr_eval :=
  cbv -[Z.mul Z.add Z.sub Z.opp Z.pow zip_with map replicate length Nat.eqb
        zsum sqnorm dot vadd].

Ltac arr_lengths H :=
  rewrite ?length_replicate, ?length_map, ?length_zip_with, ?H, ?Nat.min_id,
    ?Nat.eqb_refl.

(** * Properties of the node methods *)

Section NodeFacts.
Context `{NP : NumPy}.

Lemma rbind_ok {A B : Type} (r : result A) (k : A -> result B) (b : B) :
  rbind r k = Ok b -> exists a, r = Ok a /\ k a = Ok b.
Proof. destruct r as [a|e]; simpl; [eauto | discriminate]. Qed.

Lemma bind_ok {S A B : Type} (m : M S A) (k : A -> M S B) (h h' : S) (b : B) :
  bind m k h = Ok (b, h') -> exists a h1, m h = Ok (a, h1) /\ k a h1 = Ok (b, h').
Proof.
  unfold bind. destruct (m h) as [[a h1]|e]; [eauto | discriminate].
Qed.

Lemma bind_getattr {B : Type} (f : node -> pyarr) (p : node_id) (k : pyarr -> M heap B) (h : heap) :
  bind (getattr f p) k h = rbind (peek f h p) (fun v => k v h).
Proof.
  unfold bind, getattr, peek.
  destruct (h !! p) as [nd|]; [|reflexivity].
  destruct (f nd); [reflexivity|]. destruct (has_init (cls nd)); reflexivity.
Qed.

Lemma bind_lift {A B : Type} (r : result A) (k : A -> M heap B) (h : heap) :
  bind (lift r) k h = rbind r (fun a => k a h).
Proof. unfold bind, lift. destruct r; reflexivity. Qed.

Lemma bind_setattr {B : Type} upd (n : node_id) (v : pyarr) (k : unit -> M heap B)
    (h : heap) (nd : node) :
  h !! n = Some nd ->
  bind (setattr upd n v) k h = k tt (<[n := upd v nd]> h).
Proof. intros Hn. unfold bind, setattr. rewrite Hn. reflexivity. Qed.

Lemma lookup_insert_same (h : heap) (n : node_id) (nd x : node) :
  h !! n = Some nd -> <[n := x]> h !! n = Some x.
Proof. intros Hn. apply list_lookup_insert_eq. eapply lookup_lt_Some, Hn. Qed.

Lemma peek_self (f : node -> pyarr) (h : heap) (n : node_id) (nd : node) :
  h !! n = Some nd -> has_init (cls nd) = true -> peek f h n = Ok (f nd).
Proof.
  intros Hn Hi. unfold peek. rewrite Hn, Hi. destruct (f nd); reflexivity.
Qed.

Lemma peek_insert_ne (f : node -> pyarr) (h : heap) (n p : node_id) (x : node) :
  n <> p -> peek f (<[n := x]> h) p = peek f h p.
Proof. intros Hne. unfold peek. rewrite list_lookup_insert_ne by done. reflexivity. Qed.

Lemma reset_d_out_eq {B : Type} (k : unit -> M heap B) (h : heap) (n : node_id) (nd : node) t :
  h !! n = Some nd -> out nd = Some t ->
  bind (reset_d_out n) k h = k tt (<[n := set_d_out (Some (np_zeros (np_shape t))) nd]> h).
Proof.
  intros Hn Ho. unfold reset_d_out, bind, getattr, lift, setattr, shape_of.
  rewrite Hn, Ho. rewrite Hn. reflexivity.
Qed.

(** [forward] is [forward_value] followed by one update of the object. *)
Lemma forward_eq (n : node_id) (h : heap) :
  forward n h =
  match h !! n with
  | Some nd =>
      rbind (forward_value h nd) (fun '(o, am) =>
        Ok (Some o, <[n := forwarded nd o am]> h))
  | None => Raise AttributeError
  end.
Proof.
  unfold forward. unfold bind at 1, getcls.
  destruct (h !! n) as [nd|] eqn:Hn; [|reflexivity].
  unfold forward_value.
  destruct nd as [nm c o g am]; simpl in *.
  destruct c as [|x w b|a b|l w|a b| |]; simpl.
  - destruct o as [t|].
    + erewrite reset_d_out_eq by (first [eassumption | reflexivity]).
      unfold getattr. erewrite lookup_insert_same by eassumption.
      reflexivity.
    + unfold reset_d_out, bind, getattr, lift. rewrite Hn. reflexivity.
  - rewrite bind_getattr. destruct (peek out h x) as [xo|]; [simpl|reflexivity].
    rewrite bind_getattr. destruct (peek out h w) as [wo|]; [simpl|reflexivity].
    rewrite bind_lift. destruct (binop np_dot xo wo) as [d|]; [simpl|reflexivity].
    rewrite bind_getattr. destruct (peek out h b) as [bo|]; [simpl|reflexivity].
    rewrite bind_lift. unfold binop.
    destruct (operand d) as [d'|]; [simpl|reflexivity].
    destruct (operand bo) as [bo'|]; [simpl|reflexivity].
    destruct (np_add d' bo') as [t|]; [simpl|reflexivity].
    erewrite bind_setattr by eassumption.
    erewrite reset_d_out_eq by (first [eapply lookup_insert_same; eassumption | reflexivity]).
    rewrite list_insert_insert_eq.
    unfold getattr. erewrite lookup_insert_same by eassumption. reflexivity.
  - rewrite bind_getattr. destruct (peek out h a) as [ao|]; [simpl|reflexivity].
    rewrite bind_getattr. destruct (peek out h b) as [bo|]; [simpl|reflexivity].
    rewrite bind_lift. unfold binop.
    destruct (operand ao) as [ao'|]; [simpl|reflexivity].
    destruct (operand bo) as [bo'|]; [simpl|reflexivity].
    destruct (np_sub ao' bo') as [d|]; [simpl|reflexivity].
    erewrite bind_setattr by eassumption.
    rewrite bind_getattr. unfold peek at 1.
    erewrite lookup_insert_same by eassumption. simpl.
    rewrite bind_lift. simpl. rewrite bind_lift. simpl.
    erewrite bind_setattr by (eapply lookup_insert_same; eassumption).
    erewrite reset_d_out_eq by (first [eapply lookup_insert_same; eapply lookup_insert_same; eassumption | reflexivity]).
    rewrite !list_insert_insert_eq.
    unfold getattr. erewrite lookup_insert_same by eassumption. reflexivity.
  - rewrite bind_getattr. destruct (peek out h w) as [wo|]; [simpl|reflexivity].
    rewrite bind_lift. unfold unop at 1.
    destruct (operand wo) as [wo'|]; [simpl|reflexivity].
    rewrite bind_lift. simpl.
    erewrite bind_setattr by eassumption.
    erewrite reset_d_out_eq by (first [eapply lookup_insert_same; eassumption | reflexivity]).
    rewrite list_insert_insert_eq.
    unfold getattr. erewrite lookup_insert_same by eassumption. reflexivity.
  - rewrite bind_getattr. destruct (peek out h a) as [ao|]; [simpl|reflexivity].
    rewrite bind_getattr. destruct (peek out h b) as [bo|]; [simpl|reflexivity].
    rewrite bind_lift. unfold binop.
    destruct (operand ao) as [ao'|]; [simpl|reflexivity].
    destruct (operand bo) as [bo'|]; [simpl|reflexivity].
    destruct (np_add ao' bo') as [t|]; [simpl|reflexivity].
    erewrite bind_setattr by eassumption.
    erewrite reset_d_out_eq by (first [eapply lookup_insert_same; eassumption | reflexivity]).
    rewrite list_insert_insert_eq.
    unfold getattr. erewrite lookup_insert_same by eassumption. reflexivity.
  - reflexivity.
  - reflexivity.
Qed.

Lemma bind_getattr_self {B : Type} (f : node -> pyarr) (n : node_id) (k : pyarr -> M heap B)
    (h : heap) (nd : node) :
  h !! n = Some nd -> has_init (cls nd) = true ->
  bind (getattr f n) k h = k (f nd) h.
Proof. intros Hn Hi. rewrite bind_getattr. by erewrite peek_self. Qed.

(** [backward] computes its summands from the heap it starts from, then
    performs the [+=] statements. *)
Lemma backward_eq (n : node_id) (h : heap) :
  backward n h =
  match h !! n with
  | Some nd =>
      (let* cs := lift (local_contributions h nd) in
       run accumulate cs then
       backward_return (cls nd) n) h
  | None => Raise AttributeError
  end.
Proof.
  unfold backward. unfold bind at 1, getcls.
  destruct (h !! n) as [nd|] eqn:Hn; [|reflexivity].
  rewrite bind_lift. unfold local_contributions.
  destruct nd as [nm c o g am]; simpl in *.
  destruct c as [|x w b|a b|l w|a b| |]; simpl.
  - reflexivity.
  - erewrite bind_getattr_self by (first [eassumption | reflexivity]). simpl.
    rewrite bind_getattr. destruct (peek out h w) as [wo|]; [simpl|reflexivity].
    rewrite bind_lift. destruct (binop np_mul g wo) as [d_x|]; [simpl|reflexivity].
    erewrite bind_getattr_self by (first [eassumption | reflexivity]). simpl.
    rewrite bind_getattr. destruct (peek out h x) as [xo|]; [simpl|reflexivity].
    rewrite bind_lift. destruct (binop np_mul g xo) as [d_w|]; [simpl|reflexivity].
    erewrite bind_getattr_self by (first [eassumption | reflexivity]). simpl.
    unfold bind. destruct (iadd_d_out x d_x h) as [[[] h1]|]; [|reflexivity].
    destruct (iadd_d_out w d_w h1) as [[[] h2]|]; [|reflexivity].
    destruct (iadd_d_out b g h2) as [[[] h3]|]; reflexivity.
  - erewrite bind_getattr_self by (first [eassumption | reflexivity]). simpl.
    rewrite bind_lift.
    destruct (unop (fun t => np_mul_int t 2) g) as [g2|]; [simpl|reflexivity].
    erewrite bind_getattr_self by (first [eassumption | reflexivity]). simpl.
    rewrite bind_lift. destruct (binop np_mul g2 am) as [d_a|]; [simpl|reflexivity].
    erewrite bind_getattr_self by (first [eassumption | reflexivity]). simpl.
    rewrite bind_lift. destruct (unop np_neg g) as [ng|]; [simpl|reflexivity].
    rewrite bind_lift.
    destruct (unop (fun t => np_mul_int t 2) ng) as [ng2|]; [simpl|reflexivity].
    erewrite bind_getattr_self by (first [eassumption | reflexivity]). simpl.
    rewrite bind_lift. destruct (binop np_mul ng2 am) as [d_b|]; [simpl|reflexivity].
    unfold bind. destruct (iadd_d_out a d_a h) as [[[] h1]|]; [|reflexivity].
    destruct (iadd_d_out b d_b h1) as [[[] h2]|]; reflexivity.
  - erewrite bind_getattr_self by (first [eassumption | reflexivity]). simpl.
    rewrite bind_lift.
    destruct (unop (fun t => np_mul_int t 2) g) as [g2|]; [simpl|reflexivity].
    rewrite bind_getattr. destruct (peek out h w) as [wo|]; [simpl|reflexivity].
    rewrite bind_lift. destruct (binop np_mul g2 wo) as [d_w|]; [simpl|reflexivity].
    unfold bind. destruct (iadd_d_out w d_w h) as [[[] h1]|]; reflexivity.
  - erewrite bind_getattr_self by (first [eassumption | reflexivity]). simpl.
    erewrite bind_getattr_self by (first [eassumption | reflexivity]). simpl.
    unfold bind. destruct (iadd_d_out a g h) as [[[] h1]|]; [|reflexivity].
    destruct (iadd_d_out b g h1) as [[[] h2]|]; reflexivity.
  - reflexivity.
  - reflexivity.
Qed.

Lemma forward_ok_inv (n : node_id) (h h' : heap) (r : pyarr) :
  forward n h = Ok (r, h') ->
  exists nd o am, h !! n = Some nd /\ forward_value h nd = Ok (o, am) /\
                  r = Some o /\ h' = <[n := forwarded nd o am]> h.
Proof.
  rewrite forward_eq. destruct (h !! n) as [nd|]; [|discriminate].
  intros H. apply rbind_ok in H as ([o am] & Hv & H). injection H as <- <-.
  by exists nd, o, am.
Qed.

Lemma binop_ok op (u v r : pyarr) :
  binop op u v = Ok r ->
  exists s t x, u = Some s /\ v = Some t /\ op s t = Ok x /\ r = Some x.
Proof.
  unfold binop. destruct u as [s|]; [|discriminate]. destruct v as [t|]; [|discriminate].
  simpl. destruct (op s t) as [x|] eqn:Hx; [|discriminate].
  simpl. intros [= <-]. by exists s, t, x.
Qed.

(** *** The relation [same_but_d_out] *)

Lemma same_but_d_out_refl D (h : heap) : same_but_d_out D h h.
Proof. split; [done|]. intros m nd nd' H1 H2. rewrite H1 in H2. injection H2 as <-. done. Qed.

Lemma same_but_d_out_mono (D D' : node_id -> Prop) (h h' : heap) :
  (forall m, D m -> D' m) -> same_but_d_out D h h' -> same_but_d_out D' h h'.
Proof.
  intros HD [Hl H]. split; [done|]. intros m nd nd' H1 H2.
  destruct (H m nd nd' H1 H2) as (? & ? & ? & ? & Hd). repeat split; try done.
  intros Hn. apply Hd. intros HDm. apply Hn, HD, HDm.
Qed.

Lemma same_but_d_out_trans D (h1 h2 h3 : heap) :
  same_but_d_out D h1 h2 -> same_but_d_out D h2 h3 -> same_but_d_out D h1 h3.
Proof.
  intros [Hl12 H12] [Hl23 H23]. split; [congruence|]. intros m nd1 nd3 H1 H3.
  destruct (lookup_lt_is_Some_2 h2 m) as [nd2 H2].
  { rewrite <- Hl12. eapply lookup_lt_Some, H1. }
  destruct (H12 m nd1 nd2 H1 H2) as (? & ? & ? & ? & Hd12).
  destruct (H23 m nd2 nd3 H2 H3) as (? & ? & ? & ? & Hd23).
  repeat split; try congruence. intros Hn. rewrite Hd12, Hd23; done.
Qed.

Lemma same_but_d_out_sym D (h h' : heap) :
  same_but_d_out D h h' -> same_but_d_out D h' h.
Proof.
  intros [Hl H]. split; [done|]. intros m nd nd' H1 H2.
  destruct (H m nd' nd H2 H1) as (? & ? & ? & ? & Hd). repeat split; try done.
  intros Hn. symmetry. by apply Hd.
Qed.

Lemma same_but_d_out_lookup D (h h' : heap) (m : node_id) (nd : node) :
  same_but_d_out D h h' -> h !! m = Some nd ->
  exists nd', h' !! m = Some nd' /\ node_name nd = node_name nd' /\ cls nd = cls nd' /\
              out nd = out nd' /\ a_minus_b nd = a_minus_b nd' /\
              (~ D m -> d_out nd = d_out nd').
Proof.
  intros [Hl H] H1.
  destruct (lookup_lt_is_Some_2 h' m) as [nd' H2].
  { rewrite <- Hl. eapply lookup_lt_Some, H1. }
  exists nd'. split; [done|]. by apply H.
Qed.

Lemma same_but_d_out_peek (f : node -> pyarr) D (h h' : heap) (p : node_id) :
  same_but_d_out D h h' ->
  (forall nd nd', h !! p = Some nd -> h' !! p = Some nd' -> f nd = f nd') ->
  peek f h p = peek f h' p.
Proof.
  intros Hs Hf. unfold peek. destruct (h !! p) as [nd|] eqn:H1.
  - destruct (same_but_d_out_lookup _ _ _ _ _ Hs H1) as (nd' & H2 & _ & Hc & _).
    rewrite H2, <- Hc, (Hf nd nd' eq_refl H2). reflexivity.
  - destruct Hs as [Hl _].
    assert (h' !! p = None) as ->; [|done].
    apply lookup_ge_None. rewrite <- Hl. by apply lookup_ge_None.
Qed.

Lemma same_but_d_out_peek_out D (h h' : heap) (p : node_id) :
  same_but_d_out D h h' -> peek out h p = peek out h' p.
Proof.
  intros Hs. apply (same_but_d_out_peek out D); [done|].
  intros nd nd' H1 H2. destruct Hs as [_ H]. by destruct (H p nd nd' H1 H2) as (? & ? & ? & ? & ?).
Qed.

Lemma set_d_out_same_but (h : heap) (p : node_id) (nd : node) (v : pyarr) :
  h !! p = Some nd -> same_but_d_out (eq p) h (<[p := set_d_out v nd]> h).
Proof.
  intros Hp. split; [by rewrite length_insert|].
  intros m nd1 nd2 H1 H2. destruct (decide (p = m)) as [<-|Hne].
  - erewrite lookup_insert_same in H2 by eassumption.
    rewrite Hp in H1. injection H1 as <-. injection H2 as <-. simpl. by repeat split.
  - rewrite list_lookup_insert_ne in H2 by done. rewrite H1 in H2. injection H2 as <-.
    by repeat split.
Qed.

(** *** In-place accumulation *)

Lemma iadd_d_out_inv (p : node_id) (v : pyarr) (h h' : heap) (u : unit) :
  iadd_d_out p v h = Ok (u, h') ->
  exists nd x, h !! p = Some nd /\
               rbind (peek d_out h p) (fun c => binop np_iadd c v) = Ok (Some x) /\
               h' = <[p := set_d_out (Some x) nd]> h.
Proof.
  unfold iadd_d_out. rewrite bind_getattr.
  destruct (peek d_out h p) as [cur|] eqn:Hpk; [simpl|discriminate].
  rewrite bind_lift. destruct (binop np_iadd cur v) as [r|] eqn:Hr; [simpl|discriminate].
  unfold setattr. destruct (h !! p) as [nd|] eqn:Hp; [|discriminate].
  destruct u. intros [= <-]. apply binop_ok in Hr as (s & t & x & -> & -> & Hx & ->).
  exists nd, x. by repeat split.
Qed.

Lemma add_all_cons (cur : result pyarr) (v : pyarr) (vs : list pyarr) :
  add_all cur (v :: vs) = add_all (rbind cur (fun c => binop np_iadd c v)) vs.
Proof. reflexivity. Qed.

Lemma add_all_app (cur : result pyarr) (vs ws : list pyarr) :
  add_all cur (vs ++ ws) = add_all (add_all cur vs) ws.
Proof. unfold add_all. by rewrite foldl_app. Qed.

Lemma accumulate_inv (cs : list (node_id * pyarr)) (h h' : heap) (u : unit) :
  accumulate cs h = Ok (u, h') ->
  same_but_d_out (fun m => m ∈ cs.*1) h h' /\
  forall p, peek d_out h' p = add_all (peek d_out h p) (summands p cs).
Proof.
  destruct u. revert h. induction cs as [|[q v] cs IH]; intros h; simpl.
  - intros [= <-]. split; [apply same_but_d_out_refl | done].
  - intros H. apply bind_ok in H as ([] & h1 & Hq & H).
    apply iadd_d_out_inv in Hq as (nd & x & Hp & Hx & ->).
    destruct (IH _ H) as [Hs Hpk]. split.
    + eapply same_but_d_out_trans.
      * eapply same_but_d_out_mono; [|apply set_d_out_same_but, Hp].
        intros m <-. apply list_elem_of_here.
      * eapply same_but_d_out_mono; [|apply Hs].
        intros m Hm. by apply list_elem_of_further.
    + intros p. rewrite Hpk. destruct (Nat.eqb_spec q p) as [<-|Hne].
      * rewrite add_all_cons, Hx. f_equal. unfold peek.
        erewrite lookup_insert_same by eassumption. reflexivity.
      * by rewrite peek_insert_ne.
Qed.

Lemma backward_inv (n : node_id) (h h' : heap) (nd : node) (r : pyarr) :
  h !! n = Some nd -> backward n h = Ok (r, h') ->
  exists cs, local_contributions h nd = Ok cs /\
             accumulate cs h = Ok (tt, h') /\
             backward_return (cls nd) n h' = Ok (r, h').
Proof.
  intros Hn. rewrite backward_eq, Hn. intros H.
  apply bind_ok in H as (cs & h0 & Hcs & H).
  apply bind_ok in H as ([] & h1 & Hacc & H).
  unfold lift in Hcs. destruct (local_contributions h nd) as [cs'|]; [|discriminate].
  injection Hcs as -> ->. exists cs. split; [done|].
  assert (h1 = h') as ->; [|done].
  destruct (cls nd); simpl in H; try (by injection H); try discriminate;
    unfold getattr in H; destruct (h1 !! n) as [x|]; try discriminate;
    destruct (d_out x); try (by injection H);
    destruct (has_init (cls x)); try (by injection H); discriminate.
Qed.

Lemma local_contributions_targets (h : heap) (nd : node) cs :
  local_contributions h nd = Ok cs -> cs.*1 = pred_nodes (cls nd).
Proof.
  unfold local_contributions. destruct (cls nd); simpl;
    repeat (let H := fresh in intros H; apply rbind_ok in H as (? & _ & H); revert H);
    intros [= <-]; reflexivity.
Qed.

(** The summands depend on the object itself and on [out] of its
    predecessors only. *)
Lemma local_contributions_ext (h h' : heap) (nd : node) :
  (forall p, p ∈ pred_nodes (cls nd) -> peek out h p = peek out h' p) ->
  local_contributions h nd = local_contributions h' nd.
Proof.
  intros Hp. unfold local_contributions.
  destruct (cls nd) as [|x w b|a b|l w|a b| |]; simpl in *; try reflexivity.
  - rewrite <- (Hp w), <- (Hp x); [done| |]; repeat constructor.
  - rewrite <- (Hp w); [done|]. repeat constructor.
Qed.

Lemma backward_frame (n : node_id) (h h' : heap) (nd : node) (r : pyarr) :
  h !! n = Some nd -> backward n h = Ok (r, h') ->
  same_but_d_out (fun m => m ∈ pred_nodes (cls nd)) h h'.
Proof.
  intros Hn H. destruct (backward_inv _ _ _ _ _ Hn H) as (cs & Hcs & Hacc & _).
  apply accumulate_inv in Hacc as [Hs _].
  by rewrite (local_contributions_targets _ _ _ Hcs) in Hs.
Qed.

(** *** [forward] reads [out] of the predecessors only *)

Lemma forward_value_ext (h h' : heap) (nd nd' : node) :
  cls nd = cls nd' -> out nd = out nd' -> a_minus_b nd = a_minus_b nd' ->
  (forall p, p ∈ pred_nodes (cls nd) -> peek out h p = peek out h' p) ->
  forward_value h nd = forward_value h' nd'.
Proof.
  intros Hc Ho Ha Hp. unfold forward_value. rewrite <- Hc, <- Ho, <- Ha.
  destruct (cls nd) as [|x w b|a b|l w|a b| |]; simpl in *; try reflexivity.
  - rewrite <- (Hp x), <- (Hp w), <- (Hp b); [done| | |]; repeat constructor.
  - rewrite <- (Hp a), <- (Hp b); [done| |]; repeat constructor.
  - rewrite <- (Hp w); [done|]. repeat constructor.
  - rewrite <- (Hp a), <- (Hp b); [done| |]; repeat constructor.
Qed.

Lemma forward_value_stable (h : heap) (nd : node) (o : ndarray) (am : pyarr) :
  forward_value h nd = Ok (o, am) -> forward_value h (forwarded nd o am) = Ok (o, am).
Proof.
  unfold forward_value, forwarded. simpl.
  destruct (cls nd) as [|x w b|a b|l w|a b| |]; simpl; try done.
  all: intros H; repeat (apply rbind_ok in H as (? & -> & H); simpl);
    by injection H as <- <-.
Qed.

Lemma forward_same_classes (n : node_id) (h h' : heap) (r : pyarr) :
  forward n h = Ok (r, h') -> same_classes h h'.
Proof.
  intros H. apply forward_ok_inv in H as (nd & o & am & Hn & _ & _ & ->).
  intros m. destruct (decide (n = m)) as [<-|Hne].
  - erewrite lookup_insert_same by eassumption. by rewrite Hn.
  - by rewrite list_lookup_insert_ne.
Qed.

Lemma forward_frame D (n : node_id) (h h' t : heap) (r : pyarr) :
  same_but_d_out D h h' -> forward n h = Ok (r, t) ->
  exists t', forward n h' = Ok (r, t') /\ same_but_d_out (fun m => D m /\ m <> n) t t'.
Proof.
  intros Hs H. apply forward_ok_inv in H as (nd & o & am & Hn & Hv & -> & ->).
  destruct (same_but_d_out_lookup _ _ _ _ _ Hs Hn) as (nd' & Hn' & Hnm & Hc & Ho & Ha & _).
  exists (<[n := forwarded nd' o am]> h'). split.
  - rewrite forward_eq, Hn'.
    rewrite <- (forward_value_ext h h' nd nd') by
      (try done; intros; eapply same_but_d_out_peek_out, Hs).
    by rewrite Hv.
  - destruct Hs as [Hl Hs]. split; [by rewrite !length_insert|].
    intros m x x' H1 H2. destruct (decide (n = m)) as [<-|Hne].
    + erewrite lookup_insert_same in H1 by eassumption.
      erewrite lookup_insert_same in H2 by eassumption.
      injection H1 as <-. injection H2 as <-. unfold forwarded; simpl.
      repeat split; done.
    + rewrite list_lookup_insert_ne in H1, H2 by done.
      destruct (Hs m x x' H1 H2) as (? & ? & ? & ? & Hd). repeat split; try done.
      intros HD. apply Hd. intros HDm. apply HD. split; [done|]. by intros ->.
Qed.

Lemma forward_pass_frame D (ns : list node_id) (h h' t : heap) :
  same_but_d_out D h h' -> forward_pass ns h = Ok (tt, t) ->
  exists t', forward_pass ns h' = Ok (tt, t') /\
             same_but_d_out (fun m => D m /\ m ∉ ns) t t'.
Proof.
  revert D h h'. induction ns as [|n ns IH]; intros D h h' Hs; simpl.
  - intros [= <-]. exists h'. split; [done|].
    eapply same_but_d_out_mono; [|apply Hs].
    intros m HD. split; [done|]. apply not_elem_of_nil.
  - intros H. apply bind_ok in H as (r & h1 & Hf & H).
    destruct (forward_frame _ _ _ _ _ _ Hs Hf) as (h1' & Hf' & Hs1).
    destruct (IH _ _ _ Hs1 H) as (t' & Hp & Hst).
    exists t'. split.
    + unfold bind. by rewrite Hf'.
    + eapply same_but_d_out_mono; [|apply Hst].
      intros m [[HD Hne] Hni]. split; [done|].
      intros Hin. apply elem_of_cons in Hin as [->|Hin]; done.
Qed.

(** *** A forward pass in topological order settles every node *)

Lemma memb_spec (n : node_id) (l : list node_id) :
  existsb (Nat.eqb n) l = true <-> n ∈ l.
Proof.
  rewrite existsb_exists, list_elem_of_In. split.
  - intros (x & Hx & He). apply Nat.eqb_eq in He. by subst.
  - intros Hx. exists n. split; [done|]. apply Nat.eqb_refl.
Qed.

Lemma elem_of_rev (n : node_id) (l : list node_id) : n ∈ rev l <-> n ∈ l.
Proof. rewrite !list_elem_of_In. symmetry. apply in_rev. Qed.

Lemma topo_order_ext (h h' : heap) (seen ns : list node_id) :
  same_classes h h' -> topo_order h seen ns = topo_order h' seen ns.
Proof.
  intros Hc. revert seen. induction ns as [|n ns IH]; intros seen; simpl; [done|].
  rewrite IH. f_equal. f_equal. specialize (Hc n).
  destruct (h !! n) as [nd|], (h' !! n) as [nd'|]; simpl in Hc; try done.
  by injection Hc as ->.
Qed.

Lemma forward_settles (n : node_id) (h h1 : heap) (r : pyarr) :
  forward n h = Ok (r, h1) ->
  (forall nd, h !! n = Some nd -> n ∉ pred_nodes (cls nd)) ->
  forward n h1 = Ok (r, h1).
Proof.
  intros H Hself. apply forward_ok_inv in H as (nd & o & am & Hn & Hv & -> & ->).
  rewrite forward_eq. erewrite lookup_insert_same by eassumption.
  rewrite (forward_value_ext _ h (forwarded nd o am) (forwarded nd o am)); try done.
  - rewrite (forward_value_stable _ _ _ _ Hv). simpl.
    rewrite list_insert_insert_eq. reflexivity.
  - intros p Hp. apply peek_insert_ne. intros ->. by apply (Hself nd Hn).
Qed.

Lemma settled_frame (m n : node_id) (h : heap) (nd x : node) :
  settled m h -> h !! m = Some nd -> m <> n -> n ∉ pred_nodes (cls nd) ->
  settled m (<[n := x]> h).
Proof.
  intros [r H] Hm Hne Hnp. exists r.
  apply forward_ok_inv in H as (nd0 & o & am & Hm0 & Hv & -> & Hh).
  rewrite Hm in Hm0. injection Hm0 as <-.
  assert (forwarded nd o am = nd) as Hfix.
  { assert (<[m := forwarded nd o am]> h !! m = Some nd) as Hm' by (by rewrite <- Hh).
    erewrite lookup_insert_same in Hm' by eassumption. by injection Hm'. }
  rewrite forward_eq, list_lookup_insert_ne, Hm by done.
  rewrite (forward_value_ext _ h nd nd); try done.
  - rewrite Hv. simpl. rewrite Hfix. rewrite list_insert_id; [done|].
    by rewrite list_lookup_insert_ne.
  - intros p Hp. apply peek_insert_ne. by intros ->.
Qed.

Lemma forward_pass_settles (ns seen : list node_id) (h f : heap) :
  topo_order h seen ns = true -> good seen h ->
  forward_pass ns h = Ok (tt, f) ->
  good (rev ns ++ seen) f /\ same_classes h f.
Proof.
  revert seen h. induction ns as [|n ns IH]; intros seen h; simpl.
  - intros _ Hg [= <-]. done.
  - intros Ht Hg H. apply bind_ok in H as (r & h1 & Hf & H).
    apply andb_prop in Ht as [Ht Ht3]. apply andb_prop in Ht as [Ht1 Ht2].
    assert (n ∉ seen) as Hns.
    { intros Hin. apply memb_spec in Hin. by rewrite Hin in Ht1. }
    pose proof (forward_same_classes _ _ _ _ Hf) as Hc.
    pose proof Hf as Hf0.
    apply forward_ok_inv in Hf0 as (nd & o & am & Hn & Hv & -> & ->).
    rewrite Hn in Ht2.
    assert (forall p, p ∈ pred_nodes (cls nd) -> p ∈ seen) as Hpreds.
    { intros p Hp. apply memb_spec. rewrite forallb_forall in Ht2.
      apply Ht2. by apply list_elem_of_In. }
    assert (good (n :: seen) (<[n := forwarded nd o am]> h)) as Hg1.
    { intros m Hm. apply elem_of_cons in Hm as [->|Hm].
      - split.
        + exists (Some o). eapply forward_settles; [done|].
          intros nd0 Hn0 Hp. rewrite Hn in Hn0. injection Hn0 as <-.
          by apply Hns, Hpreds.
        + intros nd0 Hn0 p Hp. erewrite lookup_insert_same in Hn0 by eassumption.
          injection Hn0 as <-. simpl in Hp. apply list_elem_of_further. by apply Hpreds.
      - destruct (Hg m Hm) as [Hset Hcl].
        assert (m <> n) as Hne by (by intros ->).
        destruct Hset as [rm Hfm]. pose proof Hfm as Hfm0.
        apply forward_ok_inv in Hfm0 as (ndm & _ & _ & Hndm & _).
        split.
        + eapply settled_frame; [by exists rm|done|done|].
          intros Hp. by apply Hns, (Hcl ndm Hndm).
        + intros nd0 Hn0 p Hp. rewrite list_lookup_insert_ne in Hn0 by done.
          apply list_elem_of_further. by apply (Hcl nd0 Hn0). }
    rewrite (topo_order_ext _ _ _ _ Hc) in Ht3.
    destruct (IH _ _ Ht3 Hg1 H) as [Hgf Hcf]. split.
    + by rewrite <- app_assoc.
    + intros m. by rewrite Hc, Hcf.
Qed.

Lemma forward_pass_idem (ns : list node_id) (f : heap) :
  (forall n, n ∈ ns -> settled n f) -> forward_pass ns f = Ok (tt, f).
Proof.
  induction ns as [|n ns IH]; intros Hs; simpl; [done|].
  destruct (Hs n) as [r Hr]; [apply list_elem_of_here|].
  unfold bind. rewrite Hr. apply IH. intros m Hm. apply Hs. by apply list_elem_of_further.
Qed.

(** *** The backward pass changes [d_out] of predecessors only *)

Lemma backward_pass_frame (D : node_id -> Prop) (ns : list node_id) (h h' : heap) :
  (forall n nd, n ∈ ns -> h !! n = Some nd -> forall p, p ∈ pred_nodes (cls nd) -> D p) ->
  backward_pass ns h = Ok (tt, h') -> same_but_d_out D h h'.
Proof.
  revert h. induction ns as [|n ns IH]; intros h HD; simpl.
  - intros [= <-]. apply same_but_d_out_refl.
  - intros H. apply bind_ok in H as (r & h1 & Hb & H).
    assert (exists nd, h !! n = Some nd) as [nd Hn].
    { rewrite backward_eq in Hb. destruct (h !! n); [eauto | discriminate]. }
    pose proof (backward_frame _ _ _ _ _ Hn Hb) as Hf.
    assert (same_but_d_out D h h1) as Hs1.
    { eapply same_but_d_out_mono; [|apply Hf]. intros m Hm.
      eapply HD; [apply list_elem_of_here | done | done]. }
    eapply same_but_d_out_trans; [apply Hs1|]. apply IH; [|done].
    intros m ndm Hm Hndm p Hp.
    destruct (same_but_d_out_lookup _ _ _ _ _ (same_but_d_out_sym _ _ _ Hs1) Hndm)
      as (nd0 & Hnd0 & _ & Hc & _).
    eapply (HD m nd0); [by apply list_elem_of_further | done | by rewrite <- Hc].
Qed.

Lemma seed_same (o : node_id) (v : pyarr) (h h' g : heap) :
  same_but_d_out (eq o) h h' ->
  setattr set_d_out o v h = Ok (tt, g) -> setattr set_d_out o v h' = Ok (tt, g).
Proof.
  intros Hs. unfold setattr. destruct (h !! o) as [nd|] eqn:Ho; [|discriminate].
  intros [= <-].
  destruct (same_but_d_out_lookup _ _ _ _ _ Hs Ho) as (nd' & Ho' & Hnm & Hc & Hout & Ha & _).
  rewrite Ho'. do 2 f_equal. apply list_eq. intros m.
  destruct (decide (o = m)) as [<-|Hne].
  - erewrite !lookup_insert_same by eassumption. f_equal.
    unfold set_d_out. congruence.
  - rewrite !list_lookup_insert_ne by done.
    destruct Hs as [Hl Hs].
    destruct (h !! m) as [x|] eqn:H1.
    + destruct (lookup_lt_is_Some_2 h' m) as [x' H2].
      { rewrite <- Hl. eapply lookup_lt_Some, H1. }
      rewrite H2. f_equal. destruct (Hs m x x' H1 H2) as (? & ? & ? & ? & Hd).
      specialize (Hd Hne). destruct x, x'; simpl in *; congruence.
    + apply lookup_ge_None. rewrite <- Hl. by apply lookup_ge_None.
Qed.

(** *** The norm penalty never reads [l2_reg] *)

Lemma l2_penalty_forward_value (n w : node_id) (l2_reg : Z) (h : heap) (nd : node) t :
  h !! n = Some nd -> cls nd = L2NormPenaltyNode l2_reg w ->
  peek out h w = Ok (Some t) ->
  forward n h = Ok (Some (np_sum (np_pow_int t 2)),
                    <[n := forwarded nd (np_sum (np_pow_int t 2)) (a_minus_b nd)]> h).
Proof.
  intros Hn Hc Hw. rewrite forward_eq, Hn. unfold forward_value. by rewrite Hc, Hw.
Qed.

Lemma l2_penalty_contribution (n w : node_id) (l2_reg : Z) (h : heap) (nd : node) g t d_w :
  cls nd = L2NormPenaltyNode l2_reg w -> d_out nd = Some g ->
  peek out h w = Ok (Some t) -> np_mul (np_mul_int g 2) t = Ok d_w ->
  local_contributions h nd = Ok [(w, Some d_w)].
Proof.
  intros Hc Hg Hw Hm. unfold local_contributions. rewrite Hc, Hg, Hw. simpl.
  unfold binop. simpl. by rewrite Hm.
Qed.

(** C6. Whenever [forward] returns, for an object of any class and from any
    heap (so in every evaluation cycle), the object's [d_out] is
    [np.zeros] of the shape of its [out], the value [forward] returned, and
    therefore has exactly the shape of [out]. *)
Theorem forward_resets_d_out (n : node_id) (h h' : heap) (r : pyarr) :
  forward n h = Ok (r, h') ->
  exists nd' o, h' !! n = Some nd' /\ r = Some o /\ out nd' = Some o /\
                d_out nd' = Some (np_zeros (np_shape o)) /\
                np_shape (np_zeros (np_shape o)) = np_shape o.
Proof.
  intros H. apply forward_ok_inv in H as (nd & o & am & Hn & _ & -> & ->).
  exists (forwarded nd o am), o.
  split; [by eapply lookup_insert_same|].
  repeat split. apply np_shape_zeros.
Qed.

(** C7. [backward] only adds into [d_out] of the predecessors, for every
    class and every heap. A call that returns leaves every [out] and every
    other attribute alone and changes [d_out] of an object [p] to its value
    before the call with the call's summands for [p] added in place
    ([add_all]); a [p] that is no predecessor gets no summand and keeps its
    [d_out]. Consequently, for any second call that follows, on any node
    [c2] (a consumer of [c1]'s output or not), [d_out] of [p] is its
    initial value with the summands of the first call and then those of the
    second added. The summands of the second call are the ones it computes
    when it runs; when [c2] is no predecessor of [c1] they are also the ones
    it would compute on the initial heap. The summands are those of the
    code, [d_out] times the derivative of the class's own [forward]. *)
Theorem backward_accumulates (c1 : node_id) (h h1 : heap) (nd1 : node) (r1 : pyarr) :
  h !! c1 = Some nd1 -> backward c1 h = Ok (r1, h1) ->
  exists cs1,
    local_contributions h nd1 = Ok cs1 /\ cs1.*1 = pred_nodes (cls nd1) /\
    same_but_d_out (fun m => m ∈ pred_nodes (cls nd1)) h h1 /\
    (forall p, peek d_out h1 p = add_all (peek d_out h p) (summands p cs1)) /\
    forall (c2 : node_id) (h2 : heap) (nd2 : node) (r2 : pyarr),
      h1 !! c2 = Some nd2 -> backward c2 h1 = Ok (r2, h2) ->
      exists cs2,
        local_contributions h1 nd2 = Ok cs2 /\ cs2.*1 = pred_nodes (cls nd2) /\
        same_but_d_out (fun m => m ∈ pred_nodes (cls nd2)) h1 h2 /\
        (forall p, peek d_out h2 p = add_all (peek d_out h1 p) (summands p cs2)) /\
        (forall p, peek d_out h2 p =
                   add_all (peek d_out h p) (summands p cs1 ++ summands p cs2)) /\
        (c2 ∉ pred_nodes (cls nd1) ->
         h !! c2 = Some nd2 /\ local_contributions h nd2 = Ok cs2).
Proof.
  intros Hc1 Hb1.
  pose proof (backward_frame _ _ _ _ _ Hc1 Hb1) as Hf1.
  destruct (backward_inv _ _ _ _ _ Hc1 Hb1) as (cs1 & Hcs1 & Hacc1 & _).
  apply accumulate_inv in Hacc1 as [_ Hp1].
  exists cs1.
  split; [done|]. split; [by eapply local_contributions_targets|].
  split; [done|]. split; [done|].
  intros c2 h2 nd2 r2 Hc2 Hb2.
  pose proof (backward_frame _ _ _ _ _ Hc2 Hb2) as Hf2.
  destruct (backward_inv _ _ _ _ _ Hc2 Hb2) as (cs2 & Hcs2 & Hacc2 & _).
  apply accumulate_inv in Hacc2 as [_ Hp2].
  exists cs2.
  split; [done|]. split; [by eapply local_contributions_targets|].
  split; [done|]. split; [done|]. split.
  - intros p. by rewrite add_all_app, <- Hp1, <- Hp2.
  - intros Hnp.
    destruct (same_but_d_out_lookup _ _ _ _ _ (same_but_d_out_sym _ _ _ Hf1) Hc2)
      as (nd0 & Hc0 & Hnm & Hcl & Ho & Ham & Hd).
    assert (d_out nd2 = d_out nd0) as Hd0 by (by apply Hd).
    assert (nd0 = nd2) as -> by (destruct nd2, nd0; simpl in *; congruence).
    split; [done|].
    rewrite (local_contributions_ext h h1); [done|].
    intros q _. eapply same_but_d_out_peek_out, Hf1.
Qed.

(** C10. [backward] of a [SquaredL2DistanceNode] uses the difference cached
    by the last [forward]. Let [forward] run on heap [h]; let [h2] be any
    heap in which the node still has its class and its cache ([out] and
    [d_out] of every object, the predecessors included, may have changed).
    Then [backward] on [h2] adds [d_out * 2 * diff] to [a.d_out] and
    [-d_out * 2 * diff] to [b.d_out], where [diff] is [a.out - b.out] as
    read at [forward] on [h]. *)
Theorem backward_uses_cached_difference (n a b : node_id) (h h1 h2 h3 : heap)
    (nd nd1 nd2 : node) (r r' : pyarr) :
  h !! n = Some nd -> cls nd = SquaredL2DistanceNode a b ->
  forward n h = Ok (r, h1) -> h1 !! n = Some nd1 ->
  h2 !! n = Some nd2 -> cls nd2 = cls nd1 -> a_minus_b nd2 = a_minus_b nd1 ->
  backward n h2 = Ok (r', h3) ->
  exists ao bo diff g da db,
    peek out h a = Ok (Some ao) /\ peek out h b = Ok (Some bo) /\
    np_sub ao bo = Ok diff /\ a_minus_b nd1 = Some diff /\
    d_out nd2 = Some g /\
    np_mul (np_mul_int g 2) diff = Ok da /\
    np_mul (np_mul_int (np_neg g) 2) diff = Ok db /\
    accumulate [(a, Some da); (b, Some db)] h2 = Ok (tt, h3) /\
    forall p, peek d_out h3 p =
              add_all (peek d_out h2 p) (summands p [(a, Some da); (b, Some db)]).
Proof.
  intros Hn Hc Hf Hn1 Hn2 Hc2 Hcache Hb.
  apply forward_ok_inv in Hf as (nd0 & o & am & Hn0 & Hv & -> & ->).
  rewrite Hn in Hn0. injection Hn0 as <-.
  erewrite lookup_insert_same in Hn1 by eassumption. injection Hn1 as <-.
  simpl in Hc2, Hcache.
  unfold forward_value in Hv. rewrite Hc in Hv.
  apply rbind_ok in Hv as (ao & Hao & Hv). apply rbind_ok in Hv as (bo & Hbo & Hv).
  apply rbind_ok in Hv as (ao' & Hao' & Hv). apply rbind_ok in Hv as (bo' & Hbo' & Hv).
  apply rbind_ok in Hv as (diff & Hdiff & Hv). injection Hv as <- <-.
  destruct ao as [ao0|]; [|discriminate]. injection Hao' as ->.
  destruct bo as [bo0|]; [|discriminate]. injection Hbo' as ->.
  destruct (backward_inv _ _ _ _ _ Hn2 Hb) as (cs & Hcs & Hacc & _).
  unfold local_contributions in Hcs. rewrite Hc2, Hc, Hcache in Hcs.
  apply rbind_ok in Hcs as (g2 & Hg2 & Hcs). apply rbind_ok in Hcs as (d_a & Hda & Hcs).
  apply rbind_ok in Hcs as (ng & Hng & Hcs). apply rbind_ok in Hcs as (ng2 & Hng2 & Hcs).
  apply rbind_ok in Hcs as (d_b & Hdb & Hcs). injection Hcs as <-.
  destruct (d_out nd2) as [g|] eqn:Hg; [|discriminate].
  simpl in Hg2, Hng. injection Hg2 as <-. injection Hng as <-.
  simpl in Hng2. injection Hng2 as <-.
  apply binop_ok in Hda as (? & ? & da & [= <-] & [= <-] & Hda & ->).
  apply binop_ok in Hdb as (? & ? & db & [= <-] & [= <-] & Hdb & ->).
  exists ao', bo', diff, g, da, db. repeat split; try done.
  by apply accumulate_inv in Hacc as [_ Hp].
Qed.

(** C8. Run one evaluation cycle over the nodes [ns], listed in topological
    order, with output node [o] and seed [seed]: [forward] on every node,
    [o.d_out = seed], [backward] in reverse order. If the cycle completes and
    is run again with the same seed, nothing having been assigned in
    between, the second cycle completes too and ends in the very same heap:
    every [out] and every [d_out] is what it was after the first cycle. *)
Theorem run_cycle_twice (ns : list node_id) (o : node_id) (seed : ndarray) (h h1 : heap) :
  topo_order h [] ns = true ->
  run_cycle ns o seed h = Ok (tt, h1) ->
  run_cycle ns o seed h1 = Ok (tt, h1).
Proof.
  intros Ht H. unfold run_cycle in *.
  apply bind_ok in H as ([] & f1 & Hfw & H).
  apply bind_ok in H as ([] & g1 & Hseed & Hbw).
  assert (good [] h) as Hg0 by (intros m Hm; by apply elem_of_nil in Hm).
  destruct (forward_pass_settles _ _ _ _ Ht Hg0 Hfw) as [Hgood Hcls].
  rewrite app_nil_r in Hgood.
  assert (forward_pass ns f1 = Ok (tt, f1)) as Hidem.
  { apply forward_pass_idem. intros n Hn. apply Hgood. by apply elem_of_rev. }
  assert (same_but_d_out (eq o) f1 g1) as Hs_seed.
  { unfold setattr in Hseed. destruct (f1 !! o) as [ndo|] eqn:Ho; [|discriminate].
    injection Hseed as <-. by apply set_d_out_same_but. }
  assert (same_but_d_out (fun m => m ∈ ns) g1 h1) as Hs_bw.
  { eapply backward_pass_frame; [|apply Hbw].
    intros n nd Hn Hnd p Hp. apply elem_of_rev.
    destruct (same_but_d_out_lookup _ _ _ _ _ (same_but_d_out_sym _ _ _ Hs_seed) Hnd)
      as (nd0 & Hnd0 & _ & Hc & _).
    destruct (Hgood n Hn) as [_ Hcl]. apply (Hcl nd0 Hnd0). by rewrite <- Hc. }
  assert (same_but_d_out (fun m => o = m \/ m ∈ ns) f1 h1) as Hs.
  { eapply same_but_d_out_trans.
    - eapply same_but_d_out_mono; [|apply Hs_seed]. by left.
    - eapply same_but_d_out_mono; [|apply Hs_bw]. by right. }
  destruct (forward_pass_frame _ _ _ _ _ Hs Hidem) as (f2 & Hfw2 & Hs2).
  assert (same_but_d_out (eq o) f1 f2) as Hs2'.
  { eapply same_but_d_out_mono; [|apply Hs2]. by intros m [[?|?] ?]. }
  unfold bind. rewrite Hfw2. rewrite (seed_same _ _ _ _ _ Hs2' Hseed). exact Hbw.
Qed.

End NodeFacts.

(** * The concrete scenarios *)

(** C4. Leaves [a = [1,2,3]] and [b = [4,5,7]] under a
    [SquaredL2DistanceNode] [d]: after [forward] on [a], [b], [d] the value
    [d.out] is 34; after seeding [d.d_out = 1] and [backward] on [d],
    [a.d_out = [-6,-6,-8]] and [b.d_out = [6,6,8]]. *)
Theorem squared_distance_scenario_result :
  exists h,
    squared_distance_scenario [] =
    Ok ((Some (Scalar 34), Some (Vector [-6; -6; -8]), Some (Vector [6; 6; 8])), h).
Proof. eexists. vm_compute. reflexivity. Qed.

(** C5. Leaves [x = [1,0]], [w = [2,3]], [b = 5] under a
    [VectorScalarAffineNode]: after [forward] on all nodes its [out] is 7;
    after seeding its [d_out = 1] and [backward], [x.d_out = [2,3]],
    [w.d_out = [1,0]] and [b.d_out = 1]. *)
Theorem affine_scenario_result :
  exists h,
    affine_scenario [] =
    Ok ((Some (Scalar 7), Some (Vector [2; 3]), Some (Vector [1; 0]), Some (Scalar 1)), h).
Proof. eexists. vm_compute. reflexivity. Qed.

(** C1, at the failing input [l2_reg = 3], [w.out = [1,2]]: [forward] of the
    [L2NormPenaltyNode] returns and stores [sum(w.out ** 2) = 5], whereas
    [l2_reg * sum(w.out ** 2)] is 15. *)
Theorem l2_penalty_forward_omits_l2_reg :
  (exists gw h,
     l2_penalty_scenario 3 [1; 2] [] = Ok ((Some (Scalar 5), Some (Scalar 5), gw), h)) /\
  np_mul_int (np_sum (np_pow_int (Vector [1; 2]) 2)) 3 = Scalar 15.
Proof. split; [do 2 eexists|]; vm_compute; reflexivity. Qed.

(** C2, at the failing input [l2_reg = 3], [w.out = [1,2]], [d_out = 1],
    [w.d_out = [0,0]] before the call: [backward] of the
    [L2NormPenaltyNode] leaves [w.d_out = [2,4]], whereas adding
    [d_out * 2 * l2_reg * w.out] gives [[6,12]]. *)
Theorem l2_penalty_backward_omits_l2_reg :
  (exists r o h,
     l2_penalty_scenario 3 [1; 2] [] = Ok ((r, o, Some (Vector [2; 4])), h)) /\
  rbind (np_mul (np_mul_int (np_mul_int (Scalar 1) 2) 3) (Vector [1; 2]))
        (np_iadd (Vector [0; 0])) = Ok (Vector [6; 12]).
Proof. split; [do 3 eexists|]; vm_compute; reflexivity. Qed.

(** C3, for every [L2NormPenaltyNode]: [get_predecessors] returns a list of
    two elements, the node [w] and the number [l2_reg]; it is not the list
    holding [w] alone, and its second element is no node. *)
Theorem l2_penalty_predecessors_include_l2_reg (l2_reg : Z) (w : node_id) :
  get_predecessors (L2NormPenaltyNode l2_reg w) = Ok [VNode w; VScalar l2_reg] /\
  get_predecessors (L2NormPenaltyNode l2_reg w) <> Ok [VNode w] /\
  (forall n, [VNode w; VScalar l2_reg] !! 1%nat <> Some (VNode n)).
Proof. repeat split; simpl; intros; discriminate. Qed.

(** C9, on the code as it is: [AffineNode] has neither [__init__] nor
    methods. Constructing it with [(W, x, b, name)] raises [TypeError]; on
    an object built without arguments [forward], [backward] and
    [get_predecessors] raise [AttributeError]. *)
Theorem affine_node_has_no_methods :
  affine_node_construction [] = Raise TypeError /\
  (let* f := new_AffineNode [] in forward f) [] = Raise AttributeError /\
  (let* f := new_AffineNode [] in backward f) [] = Raise AttributeError /\
  get_predecessors AffineNode = Raise AttributeError.
Proof. repeat split. Qed.

(** In the ridge graph the leaf [w] receives [[4,6]] from [reg] and [[2,0]]
    from [pred], and ends with their sum. *)
Example ridge_w_gradient :
  peek d_out ridge_before 1%nat = Ok (Some (Vector [0; 0])) /\
  peek d_out ridge_after_reg 1%nat = Ok (Some (Vector [4; 6])) /\
  peek d_out ridge_after_pred 1%nat = Ok (Some (Vector [6; 6])).
Proof. repeat split. Qed.

(** [forward] on the distance node of [dist_heap]. *)
Lemma forward_resets_d_out_witness :
  exists nd' o,
    dist_forwarded !! 2%nat = Some nd' /\ Some (Scalar 34) = Some o /\
    out nd' = Some o /\ d_out nd' = Some (np_zeros (np_shape o)) /\
    np_shape (np_zeros (np_shape o)) = np_shape o.
Proof.
  apply (forward_resets_d_out 2%nat dist_heap dist_forwarded (Some (Scalar 34))).
  reflexivity.
Defined.

(** [backward] on [s2 = Sum(s1, w)] and then on [s1 = Sum(w, u)]: the leaf
    [w] has the two consumers [s2] and [s1], and [s1] feeds [s2]. Its
    [d_out] goes from [[0,0]] over [[1,1]] to [[2,2]]. *)
Lemma backward_accumulates_witness :
  exists cs1 cs2,
    local_contributions skip_before skip_s2 = Ok cs1 /\
    local_contributions skip_after_s2 skip_s1 = Ok cs2 /\
    (forall p, peek d_out skip_after_s2 p =
               add_all (peek d_out skip_before p) (summands p cs1)) /\
    (forall p, peek d_out skip_after_s1 p =
               add_all (peek d_out skip_before p) (summands p cs1 ++ summands p cs2)) /\
    peek d_out skip_before 0%nat = Ok (Some (Vector [0; 0])) /\
    peek d_out skip_after_s2 0%nat = Ok (Some (Vector [1; 1])) /\
    peek d_out skip_after_s1 0%nat = Ok (Some (Vector [2; 2])).
Proof.
  destruct (backward_accumulates (NP:=IntArrays) 3%nat skip_before skip_after_s2 skip_s2
              (Some (Vector [1; 1])) eq_refl eq_refl)
    as (cs1 & Hcs1 & _ & _ & Hp1 & Hnext).
  destruct (Hnext 2%nat skip_after_s1 skip_s1 (Some (Vector [1; 1])) eq_refl eq_refl)
    as (cs2 & Hcs2 & _ & _ & _ & Hp12 & _).
  exists cs1, cs2. repeat split; assumption.
Defined.

(** A second cycle over the ridge graph. *)
Lemma run_cycle_twice_witness :
  run_cycle (NP:=IntArrays) ridge_order 7%nat (Scalar 1) ridge_cycled = Ok (tt, ridge_cycled).
Proof.
  apply (run_cycle_twice (NP:=IntArrays) ridge_order 7%nat (Scalar 1) ridge_heap ridge_cycled).
  - reflexivity.
  - reflexivity.
Defined.

(** [a.out] and [b.out] are overwritten between [forward] and [backward] of
    the distance node; the summands still come from [[1,2,3] - [4,5,7]]. *)
Lemma backward_uses_cached_difference_witness :
  exists ao bo diff g da db,
    peek out dist_heap 0%nat = Ok (Some ao) /\ peek out dist_heap 1%nat = Ok (Some bo) /\
    np_sub ao bo = Ok diff /\
    a_minus_b dist_d_forwarded = Some diff /\
    d_out dist_d_seeded = Some g /\
    np_mul (np_mul_int g 2) diff = Ok da /\
    np_mul (np_mul_int (np_neg g) 2) diff = Ok db /\
    accumulate [(0%nat, Some da); (1%nat, Some db)] dist_mutated = Ok (tt, dist_backwarded) /\
    forall p, peek d_out dist_backwarded p =
              add_all (peek d_out dist_mutated p)
                (summands p [(0%nat, Some da); (1%nat, Some db)]).
Proof.
  apply (backward_uses_cached_difference 2%nat 0%nat 1%nat
           dist_heap dist_forwarded dist_mutated dist_backwarded
           dist_d dist_d_forwarded dist_d_seeded
           (Some (Scalar 34)) (Some (Scalar 1))); reflexivity.
Defined.

(** With the overwritten [out] values the difference would be
    [[10,20,30]]; [backward] added [2 * [-3,-3,-4]] and its negation. *)
Example dist_gradients_from_cache :
  peek d_out dist_backwarded 0%nat = Ok (Some (Vector [-6; -6; -8])) /\
  peek d_out dist_backwarded 1%nat = Ok (Some (Vector [6; 6; 8])) /\
  rbind (peek out dist_mutated 0%nat) (fun a =>
    rbind (peek out dist_mutated 1%nat) (fun b => binop np_sub a b))
  = Ok (Some (Vector [10; 20; 30])).
Proof. repeat split. Qed.

(** * Further properties of the methods *)

Section MoreNodeFacts.
Context `{NP : NumPy}.

(** X1. [forward] writes the attributes of its own object only: the heap
    keeps its size, every other object is left as it is (no predecessor is
    written), and the object keeps its name and class. *)
Theorem forward_only_updates_self (n : node_id) (h h' : heap) (r : pyarr) :
  forward n h = Ok (r, h') ->
  length h' = length h /\
  (forall m, m <> n -> h' !! m = h !! m) /\
  exists nd nd', h !! n = Some nd /\ h' !! n = Some nd' /\
                 node_name nd' = node_name nd /\ cls nd' = cls nd.
Proof.
  intros H. apply forward_ok_inv in H as (nd & o & am & Hn & _ & _ & ->).
  split; [apply length_insert|]. split.
  - intros m Hne. by apply list_lookup_insert_ne.
  - exists nd, (forwarded nd o am). split; [done|].
    split; [by eapply lookup_insert_same|]. done.
Qed.

(** In the embedding, where a [None] operand always raises, [forward]
    returns only if the values it reads are arrays. *)
Lemma forward_ok_reads_arrays (n : node_id) (h h' : heap) (r : pyarr) :
  forward n h = Ok (r, h') ->
  exists nd, h !! n = Some nd /\
    (cls nd = ValueNode -> exists t, out nd = Some t) /\
    forall p, p ∈ pred_nodes (cls nd) -> exists t, peek out h p = Ok (Some t).
Proof.
  intros H. apply forward_ok_inv in H as (nd & o & am & Hn & Hv & _ & _).
  exists nd. split; [done|]. unfold forward_value in Hv.
  destruct (cls nd) as [|x w b|a b|l w|a b| |] eqn:Hc; simpl; try discriminate.
  - split; [|by intros p Hp%elem_of_nil].
    intros _. destruct (out nd) as [t|]; [eauto | discriminate].
  - split; [done|].
    apply rbind_ok in Hv as (xo & Hx & Hv). apply rbind_ok in Hv as (wo & Hw & Hv).
    apply rbind_ok in Hv as (d & Hd & Hv). apply rbind_ok in Hv as (bo & Hb & Hv).
    apply rbind_ok in Hv as (d' & _ & Hv). apply rbind_ok in Hv as (bo' & Hbo & _).
    apply binop_ok in Hd as (s & t & _ & -> & -> & _).
    destruct bo as [bt|]; [|discriminate].
    intros p Hp. repeat (apply elem_of_cons in Hp as [->|Hp]; [eauto|]).
    by apply elem_of_nil in Hp.
  - split; [done|].
    apply rbind_ok in Hv as (ao & Ha & Hv). apply rbind_ok in Hv as (bo & Hb & Hv).
    apply rbind_ok in Hv as (ao' & Hao & Hv). apply rbind_ok in Hv as (bo' & Hbo & _).
    destruct ao as [at'|]; [|discriminate]. destruct bo as [bt|]; [|discriminate].
    intros p Hp. repeat (apply elem_of_cons in Hp as [->|Hp]; [eauto|]).
    by apply elem_of_nil in Hp.
  - split; [done|].
    apply rbind_ok in Hv as (wo & Hw & Hv). apply rbind_ok in Hv as (wo' & Hwo & _).
    destruct wo as [wt|]; [|discriminate].
    intros p Hp. repeat (apply elem_of_cons in Hp as [->|Hp]; [eauto|]).
    by apply elem_of_nil in Hp.
  - split; [done|].
    apply rbind_ok in Hv as (ao & Ha & Hv). apply rbind_ok in Hv as (bo & Hb & Hv).
    apply rbind_ok in Hv as (ao' & Hao & Hv). apply rbind_ok in Hv as (bo' & Hbo & _).
    destruct ao as [at'|]; [|discriminate]. destruct bo as [bt|]; [|discriminate].
    intros p Hp. repeat (apply elem_of_cons in Hp as [->|Hp]; [eauto|]).
    by apply elem_of_nil in Hp.
Qed.

(** X3. [backward] on an operator node whose [d_out] is unset, as it is
    between construction and the first [forward], raises an exception. *)
Theorem backward_before_forward_raises (n : node_id) (h : heap) (nd : node) :
  h !! n = Some nd -> d_out nd = None -> pred_nodes (cls nd) <> [] ->
  exists e, backward n h = Raise e.
Proof.
  intros Hn Hd Hp. destruct (backward n h) as [[r h']|e] eqn:Hb; [|by exists e].
  exfalso. destruct (backward_inv _ _ _ _ _ Hn Hb) as (cs & Hcs & Hacc & _).
  unfold local_contributions in Hcs. rewrite Hd in Hcs.
  destruct (cls nd) as [|x w b|a b|l w|a b| |]; simpl in *;
    try discriminate; try done.
  - by apply rbind_ok in Hcs as (wo & _ & Hcs).
  - injection Hcs as <-. simpl in Hacc.
    apply bind_ok in Hacc as ([] & h1 & Hi & _).
    apply iadd_d_out_inv in Hi as (? & ? & _ & Hi & _).
    apply rbind_ok in Hi as (c & _ & Hi).
    by apply binop_ok in Hi as (? & ? & ? & _ & ? & _).
Qed.

Lemma forward_only_updates_self_aux (n : node_id) (h h' : heap) (r : pyarr) :
  forward n h = Ok (r, h') -> (forall m, m <> n -> h' !! m = h !! m) /\ length h' = length h.
Proof.
  intros H. apply forward_ok_inv in H as (nd & o & am & Hn & _ & _ & ->).
  split; [|apply length_insert]. intros m Hne. by apply list_lookup_insert_ne.
Qed.

(** X4. [forward] can be repeated. After [forward] on a node that is not
    its own predecessor, let [d_out] attributes change in any way (by
    [backward] calls, by a seed). Another [forward] on the node returns the
    same value and puts the object into exactly the state it had after the
    first call, [d_out] reset to zeros included. *)
Theorem forward_restores_node D (n : node_id) (h h1 h2 : heap) (r : pyarr) :
  forward n h = Ok (r, h1) ->
  (forall nd, h !! n = Some nd -> n ∉ pred_nodes (cls nd)) ->
  same_but_d_out D h1 h2 ->
  exists h3, forward n h2 = Ok (r, h3) /\ h3 !! n = h1 !! n /\
             forall m, m <> n -> h3 !! m = h2 !! m.
Proof.
  intros Hf Hself Hs.
  pose proof (forward_settles _ _ _ _ Hf Hself) as Hf1.
  destruct (forward_frame _ _ _ _ _ _ Hs Hf1) as (h3 & Hf2 & Hs3).
  exists h3. split; [done|]. split.
  - apply forward_ok_inv in Hf as (nd & o & am & Hn & _ & _ & ->).
    erewrite lookup_insert_same by eassumption.
    destruct (same_but_d_out_lookup _ _ _ _ _ Hs3 (lookup_insert_same _ _ _ _ Hn))
      as (nd3 & Hn3 & Hnm & Hc & Ho & Ha & Hd).
    rewrite Hn3. f_equal.
    assert (d_out (forwarded nd o am) = d_out nd3) as Hd' by (apply Hd; by intros [_ ?]).
    destruct nd3; simpl in *. unfold forwarded. congruence.
  - by destruct (forward_only_updates_self_aux n h2 h3 r Hf2).
Qed.

(** X5. The order of [forward] calls on two independent nodes does not
    matter: if neither of two distinct nodes is a predecessor of the other,
    [forward] on one and then the other returns the same two values and ends
    in the same heap as the calls in the opposite order. *)
Theorem forward_commutes (n m : node_id) (h h1 h2 : heap) (ndn ndm : node) (rn rm : pyarr) :
  h !! n = Some ndn -> h !! m = Some ndm -> n <> m ->
  n ∉ pred_nodes (cls ndm) -> m ∉ pred_nodes (cls ndn) ->
  forward n h = Ok (rn, h1) -> forward m h1 = Ok (rm, h2) ->
  exists h1', forward m h = Ok (rm, h1') /\ forward n h1' = Ok (rn, h2).
Proof.
  intros Hn Hm Hne Hnm Hmn Hf1 Hf2.
  apply forward_ok_inv in Hf1 as (nd1 & o1 & am1 & Hn1 & Hv1 & -> & ->).
  rewrite Hn in Hn1. injection Hn1 as <-.
  apply forward_ok_inv in Hf2 as (nd2 & o2 & am2 & Hm2 & Hv2 & -> & ->).
  rewrite list_lookup_insert_ne, Hm in Hm2 by done. injection Hm2 as <-.
  rewrite (forward_value_ext _ h ndm ndm) in Hv2; try done.
  2:{ intros p Hp. apply peek_insert_ne. by intros ->. }
  exists (<[m := forwarded ndm o2 am2]> h). split.
  - by rewrite forward_eq, Hm, Hv2.
  - rewrite forward_eq, list_lookup_insert_ne, Hn by done.
    rewrite (forward_value_ext _ h ndn ndn); try done.
    + rewrite Hv1. simpl. by rewrite list_insert_insert_ne.
    + intros p Hp. apply peek_insert_ne. by intros ->.
Qed.

(** *** A cycle keeps the leaves *)

Lemma same_leaves_refl (h : heap) : same_leaves h h.
Proof. split; [done|]. intros p nd Hp. by exists nd. Qed.

Lemma same_leaves_trans (h1 h2 h3 : heap) :
  same_leaves h1 h2 -> same_leaves h2 h3 -> same_leaves h1 h3.
Proof.
  intros [Hl12 H12] [Hl23 H23]. split; [congruence|]. intros p nd1 H1.
  destruct (H12 p nd1 H1) as (nd2 & H2 & Hnm2 & Hc2 & Ho2).
  destruct (H23 p nd2 H2) as (nd3 & H3 & Hnm3 & Hc3 & Ho3).
  exists nd3. repeat split; try congruence.
  intros Hv. rewrite Ho3, Ho2; congruence.
Qed.

Lemma forward_same_leaves (n : node_id) (h h' : heap) (r : pyarr) :
  forward n h = Ok (r, h') -> same_leaves h h'.
Proof.
  intros H. apply forward_ok_inv in H as (nd & o & am & Hn & Hv & _ & ->).
  split; [apply length_insert|]. intros p ndp Hp.
  destruct (decide (n = p)) as [<-|Hne].
  - rewrite Hn in Hp. injection Hp as <-. exists (forwarded nd o am).
    split; [by eapply lookup_insert_same|]. repeat split.
    intros Hc. unfold forward_value in Hv. rewrite Hc in Hv.
    simpl. destruct (out nd); [by injection Hv as -> _ | discriminate].
  - exists ndp. by rewrite list_lookup_insert_ne.
Qed.

Lemma same_but_d_out_same_leaves D (h h' : heap) :
  same_but_d_out D h h' -> same_leaves h h'.
Proof.
  intros Hs. split; [by destruct Hs|]. intros p nd Hp.
  destruct (same_but_d_out_lookup _ _ _ _ _ Hs Hp) as (nd' & Hp' & ? & ? & ? & _).
  exists nd'. by repeat split.
Qed.

Lemma forward_pass_same_leaves (ns : list node_id) (h h' : heap) :
  forward_pass ns h = Ok (tt, h') -> same_leaves h h'.
Proof.
  revert h. induction ns as [|n ns IH]; intros h; simpl.
  - intros [= <-]. apply same_leaves_refl.
  - intros H. apply bind_ok in H as (r & h1 & Hf & H).
    apply (same_leaves_trans _ h1); [exact (forward_same_leaves _ _ _ _ Hf) | by apply IH].
Qed.

(** X6. An evaluation cycle never touches what the caller supplied: after a
    completed cycle the heap holds the same objects with their names and
    classes, and every [ValueNode] still has the [out] it was given. *)
Theorem run_cycle_keeps_leaves (ns : list node_id) (o : node_id) (seed : ndarray)
    (h h1 : heap) :
  run_cycle ns o seed h = Ok (tt, h1) ->
  length h1 = length h /\
  forall p nd, h !! p = Some nd ->
    exists nd1, h1 !! p = Some nd1 /\ node_name nd1 = node_name nd /\
                cls nd1 = cls nd /\ (cls nd = ValueNode -> out nd1 = out nd).
Proof.
  intros H. unfold run_cycle in H.
  apply bind_ok in H as ([] & f1 & Hfw & H).
  apply bind_ok in H as ([] & g1 & Hseed & Hbw).
  change (same_leaves h h1).
  apply (same_leaves_trans _ f1); [exact (forward_pass_same_leaves _ _ _ Hfw)|].
  apply (same_leaves_trans _ g1).
  - unfold setattr in Hseed. destruct (f1 !! o) as [ndo|] eqn:Ho; [|discriminate].
    injection Hseed as <-.
    eapply same_but_d_out_same_leaves. by apply set_d_out_same_but.
  - eapply (same_but_d_out_same_leaves (fun _ => True)).
    eapply backward_pass_frame; [|apply Hbw]. done.
Qed.

End MoreNodeFacts.

(** * Properties over integer arrays *)

Lemma zip_add_zeros (n : nat) (l : list Z) :
  length l = n -> zip_with Z.add (replicate n 0) l = l.
Proof.
  intros <-. induction l as [|x l IH]; simpl; [done|]. by rewrite IH.
Qed.

Lemma map_mul_1 (l : list Z) : map (Z.mul 1) l = l.
Proof. induction l as [|x l IH]; simpl; [done|]. rewrite IH. by destruct x. Qed.

Lemma dot_vadd_l (xs es ws : list Z) :
  length xs = length ws -> length es = length xs ->
  dot (vadd xs es) ws = dot xs ws + dot ws es.
Proof.
  unfold dot, vadd, zsum. revert es ws.
  induction xs as [|x xs IH]; intros [|e es] [|w ws]; simpl; try done.
  intros [= Hw] [= He]. rewrite (IH es ws Hw He). ring.
Qed.

Lemma dot_vadd_r (xs es ws : list Z) :
  length xs = length ws -> length es = length xs ->
  dot xs (vadd ws es) = dot xs ws + dot xs es.
Proof.
  unfold dot, vadd, zsum. revert es ws.
  induction xs as [|x xs IH]; intros [|e es] [|w ws]; simpl; try done.
  intros [= Hw] [= He]. rewrite (IH es ws Hw He). ring.
Qed.

Lemma sqnorm_sub_vadd_l (xs ys es : list Z) :
  length xs = length ys -> length es = length xs ->
  sqnorm (zip_with Z.sub (vadd xs es) ys) =
  sqnorm (zip_with Z.sub xs ys) + dot (map (Z.mul 2) (zip_with Z.sub xs ys)) es + sqnorm es.
Proof.
  unfold sqnorm, dot, vadd, zsum. revert es ys.
  induction xs as [|x xs IH]; intros [|e es] [|y ys]; simpl; try done.
  intros [= Hy] [= He]. rewrite (IH es ys Hy He), !Z.pow_2_r. ring.
Qed.

Lemma sqnorm_sub_vadd_r (xs ys es : list Z) :
  length xs = length ys -> length es = length xs ->
  sqnorm (zip_with Z.sub xs (vadd ys es)) =
  sqnorm (zip_with Z.sub xs ys) + dot (map (Z.mul (-2)) (zip_with Z.sub xs ys)) es + sqnorm es.
Proof.
  unfold sqnorm, dot, vadd, zsum. revert es ys.
  induction xs as [|x xs IH]; intros [|e es] [|y ys]; simpl; try done.
  intros [= Hy] [= He]. rewrite (IH es ys Hy He), !Z.pow_2_r. ring.
Qed.

Lemma sqnorm_vadd (ws es : list Z) :
  length es = length ws ->
  sqnorm (vadd ws es) = sqnorm ws + dot (map (Z.mul 2) ws) es + sqnorm es.
Proof.
  unfold sqnorm, dot, vadd, zsum. revert es.
  induction ws as [|w ws IH]; intros [|e es]; simpl; try done.
  intros [= He]. rewrite (IH es He), !Z.pow_2_r. ring.
Qed.

Lemma squared_distance_run_eq (xs ys : list Z) :
  length xs = length ys ->
  exists h,
    squared_distance_run (Vector xs) (Vector ys) [] =
    Ok ((Some (Scalar (sqnorm (zip_with Z.sub xs ys))),
         Some (Vector (map (Z.mul 2) (zip_with Z.sub xs ys))),
         Some (Vector (map (Z.mul (-2)) (zip_with Z.sub xs ys)))), h).
Proof.
  intros Hl. eexists. unfold squared_distance_run.
  cbn. repeat progress (arr_eval; arr_lengths Hl).
  rewrite !zip_add_zeros by (by arr_lengths Hl).
  reflexivity.
Qed.

(** X7. [SquaredL2DistanceNode] on two vectors [xs], [ys] of one length,
    with [small] integer data, on which numpy's arithmetic is exact:
    [forward] gives the sum of the squared differences, and [backward]
    with [d_out = 1] gives [2 * (xs - ys)] to [a] and [-2 * (xs - ys)] to
    [b]. These are the exact gradients of what [forward] computes: moving
    [a.out] or [b.out] by any [es] changes the value of [forward] by the
    inner product of the gradient with [es], plus the sum of squares of
    [es]. *)
Theorem squared_distance_gradient (xs ys es : list Z) :
  small xs = true -> small ys = true -> small es = true ->
  length xs = length ys -> length es = length xs ->
  exists v da db,
    v = sqnorm (zip_with Z.sub xs ys) /\
    da = map (Z.mul 2) (zip_with Z.sub xs ys) /\
    db = map (Z.mul (-2)) (zip_with Z.sub xs ys) /\
    (exists h, squared_distance_run (Vector xs) (Vector ys) [] =
               Ok ((Some (Scalar v), Some (Vector da), Some (Vector db)), h)) /\
    (exists ga gb h, squared_distance_run (Vector (vadd xs es)) (Vector ys) [] =
               Ok ((Some (Scalar (v + dot da es + sqnorm es)), ga, gb), h)) /\
    (exists ga gb h, squared_distance_run (Vector xs) (Vector (vadd ys es)) [] =
               Ok ((Some (Scalar (v + dot db es + sqnorm es)), ga, gb), h)).
Proof.
  intros _ _ _ Hl He. do 3 eexists. do 3 (split; [reflexivity|]).
  split; [by apply squared_distance_run_eq|]. split.
  - destruct (squared_distance_run_eq (vadd xs es) ys) as [h Hh].
    { unfold vadd. rewrite length_zip_with, He, Nat.min_id. done. }
    do 3 eexists. rewrite Hh. by rewrite sqnorm_sub_vadd_l.
  - destruct (squared_distance_run_eq xs (vadd ys es)) as [h Hh].
    { unfold vadd. rewrite length_zip_with, He, Hl, Nat.min_id. done. }
    do 3 eexists. rewrite Hh. by rewrite sqnorm_sub_vadd_r.
Qed.

Lemma affine_run_eq (xs ws : list Z) (bv : Z) :
  length xs = length ws ->
  exists h,
    affine_run (Vector xs) (Vector ws) (Scalar bv) [] =
    Ok ((Some (Scalar (dot xs ws + bv)), Some (Vector ws), Some (Vector xs),
         Some (Scalar 1)), h).
Proof.
  intros Hl. eexists. unfold affine_run.
  cbn. repeat progress (arr_eval; arr_lengths Hl).
  rewrite !map_mul_1. rewrite !zip_add_zeros by (by arr_lengths Hl).
  reflexivity.
Qed.

(** X8. [VectorScalarAffineNode] on vectors [xs], [ws] of one length and a
    scalar [bv], with [small] integer data, on which numpy's arithmetic is
    exact: [forward] gives their inner product plus [bv], and
    [backward] with [d_out = 1] gives [ws] to [x], [xs] to [w] and 1 to
    [b]. The value of [forward] is linear in each input with these
    gradients: moving [x.out] by [es] adds [dot ws es], moving [w.out] by
    [es] adds [dot xs es], moving [b.out] by [c] adds [c]. *)
Theorem affine_gradient (xs ws es : list Z) (bv c : Z) :
  small xs = true -> small ws = true -> small es = true ->
  small_entry bv = true -> small_entry c = true ->
  length xs = length ws -> length es = length xs ->
  exists v,
    v = dot xs ws + bv /\
    (exists h, affine_run (Vector xs) (Vector ws) (Scalar bv) [] =
               Ok ((Some (Scalar v), Some (Vector ws), Some (Vector xs), Some (Scalar 1)), h)) /\
    (exists gx gw gb h, affine_run (Vector (vadd xs es)) (Vector ws) (Scalar bv) [] =
               Ok ((Some (Scalar (v + dot ws es)), gx, gw, gb), h)) /\
    (exists gx gw gb h, affine_run (Vector xs) (Vector (vadd ws es)) (Scalar bv) [] =
               Ok ((Some (Scalar (v + dot xs es)), gx, gw, gb), h)) /\
    (exists gx gw gb h, affine_run (Vector xs) (Vector ws) (Scalar (bv + c)) [] =
               Ok ((Some (Scalar (v + 1 * c)), gx, gw, gb), h)).
Proof.
  intros _ _ _ _ _ Hl He. eexists. split; [reflexivity|].
  split; [by apply affine_run_eq|]. split; [|split].
  - destruct (affine_run_eq (vadd xs es) ws bv) as [h Hh].
    { unfold vadd. rewrite length_zip_with, He, Nat.min_id. done. }
    do 4 eexists. rewrite Hh, dot_vadd_l by done.
    by replace (dot xs ws + dot ws es + bv) with (dot xs ws + bv + dot ws es) by ring.
  - destruct (affine_run_eq xs (vadd ws es) bv) as [h Hh].
    { unfold vadd. rewrite length_zip_with, He, Hl, Nat.min_id. done. }
    do 4 eexists. rewrite Hh, dot_vadd_r by done.
    by replace (dot xs ws + dot xs es + bv) with (dot xs ws + bv + dot xs es) by ring.
  - destruct (affine_run_eq xs ws (bv + c) Hl) as [h Hh].
    do 4 eexists. rewrite Hh.
    by replace (dot xs ws + (bv + c)) with (dot xs ws + bv + 1 * c) by ring.
Qed.

Lemma l2_penalty_scenario_eq (l2_reg : Z) (ws : list Z) :
  exists h,
    l2_penalty_scenario l2_reg ws [] =
    Ok ((Some (Scalar (sqnorm ws)), Some (Scalar (sqnorm ws)),
         Some (Vector (map (Z.mul 2) ws))), h).
Proof.
  eexists. unfold l2_penalty_scenario.
  cbn. repeat progress (arr_eval; arr_lengths (@eq_refl nat 0%nat)).
  rewrite !zip_add_zeros by (by arr_lengths (@eq_refl nat 0%nat)).
  reflexivity.
Qed.

(** X9. [L2NormPenaltyNode] on a vector [ws] of [small] integer data, on
    which numpy's arithmetic is exact, whatever [l2_reg] is: [forward]
    returns and stores the sum of the squares of [ws], and
    [backward] with [d_out = 1] gives [2 * ws] to [w]. The two methods are
    consistent with each other: moving [w.out] by any [es] changes the
    value of [forward] by the inner product of that gradient with [es],
    plus the sum of squares of [es]. *)
Theorem l2_penalty_gradient (l2_reg : Z) (ws es : list Z) :
  small ws = true -> small es = true ->
  length es = length ws ->
  (exists h, l2_penalty_scenario l2_reg ws [] =
             Ok ((Some (Scalar (sqnorm ws)), Some (Scalar (sqnorm ws)),
                  Some (Vector (map (Z.mul 2) ws))), h)) /\
  (exists gw h, l2_penalty_scenario l2_reg (vadd ws es) [] =
             Ok ((Some (Scalar (sqnorm ws + dot (map (Z.mul 2) ws) es + sqnorm es)),
                  Some (Scalar (sqnorm ws + dot (map (Z.mul 2) ws) es + sqnorm es)),
                  gw), h)).
Proof.
  intros _ _ He. split; [apply l2_penalty_scenario_eq|].
  destruct (l2_penalty_scenario_eq l2_reg (vadd ws es)) as [h Hh].
  do 2 eexists. rewrite Hh. by rewrite sqnorm_vadd.
Qed.

Lemma sum_run_eq (xs ys gs : list Z) :
  length xs = length ys -> length gs = length ys ->
  exists h,
    sum_run (Vector xs) (Vector ys) (Vector gs) [] =
    Ok ((Some (Vector (vadd xs ys)), Some (Vector gs), Some (Vector gs)), h).
Proof.
  intros Hl Hg. eexists. unfold sum_run.
  cbn. repeat progress (arr_eval; arr_lengths Hl; arr_lengths Hg).
  rewrite !zip_add_zeros by done.
  reflexivity.
Qed.

(** X10. [SumNode] on two vectors of one length, with [small] integer
    data, on which numpy's arithmetic is exact: [forward] gives their
    elementwise sum, and [backward] hands the node's [d_out], here any
    vector [gs] of that length, unchanged to both inputs. *)
Theorem sum_gradient (xs ys gs : list Z) :
  small xs = true -> small ys = true -> small gs = true ->
  length xs = length ys -> length gs = length ys ->
  exists h,
    sum_run (Vector xs) (Vector ys) (Vector gs) [] =
    Ok ((Some (Vector (zip_with Z.add xs ys)), Some (Vector gs), Some (Vector gs)), h).
Proof. intros _ _ _ Hl Hg. by apply sum_run_eq. Qed.

(** X11. [SumNode] does not check shapes. With a vector [a.out] and a
    0-dimensional [b.out] of [small] integer data, on which numpy's
    arithmetic is exact, [forward] succeeds by broadcasting and returns a
    vector; the following [backward], whose [d_out] is then a vector of
    that length, raises [ValueError] at [self.b.d_out += d_b], because the
    0-dimensional [b.d_out] cannot take a vector in place. *)
Theorem sum_broadcast_backward_raises (l gs : list Z) (v : Z) :
  small l = true -> small gs = true -> small_entry v = true ->
  length gs = length l ->
  (exists h, sum_forward_run (Vector l) (Scalar v) [] =
             Ok (Some (Vector (map (fun x => x + v) l)), h)) /\
  sum_run (Vector l) (Scalar v) (Vector gs) [] = Raise ValueError.
Proof.
  intros _ _ _ Hg. split.
  - eexists. unfold sum_forward_run. cbn. reflexivity.
  - unfold sum_run. cbn. repeat progress (arr_eval; arr_lengths Hg). reflexivity.
Qed.

(** X12. [VectorScalarAffineNode] on two vectors of different lengths:
    [forward] raises [ValueError] (from [np.dot]), whatever [b.out] is. *)
Theorem affine_length_mismatch_raises (xs ws : list Z) (b_out : intarr) :
  length xs <> length ws ->
  affine_run (Vector xs) (Vector ws) b_out [] = Raise ValueError.
Proof.
  intros Hne. apply Nat.eqb_neq in Hne. unfold affine_run.
  destruct b_out as [bv|bl]; cbn; arr_eval; by rewrite Hne.
Qed.

Lemma dot_self_opp (xs ys : list Z) :
  length xs = length ys ->
  zsum (zip_with Z.mul (zip_with Z.sub ys xs) (zip_with Z.sub ys xs)) =
  sqnorm (zip_with Z.sub xs ys).
Proof.
  unfold sqnorm, zsum. revert ys.
  induction xs as [|x xs IH]; intros [|y ys]; simpl; try done.
  intros [= Hl]. rewrite (IH ys Hl), Z.pow_2_r. ring.
Qed.

(** X13. The notebook's test cell agrees with the node. In any heap where
    [n] is a [SquaredL2DistanceNode] over [a] and [b] whose [out] are
    vectors [xs] and [ys] of one length, of [small] integer data,
    [forward] on [n] returns a value, and it is the value the cell
    [np.dot(testb - testa, testb - testa)] computes from [testa = xs] and
    [testb = ys]. *)
Theorem test_cell_agrees_with_forward (n a b : node_id) (h : heap) (nd : node)
    (xs ys : list Z) :
  small xs = true -> small ys = true -> length xs = length ys ->
  h !! n = Some nd -> cls nd = SquaredL2DistanceNode a b ->
  peek out h a = Ok (Some (Vector xs)) -> peek out h b = Ok (Some (Vector ys)) ->
  exists v h', forward n h = Ok (Some v, h') /\
               test_cell (Vector xs) (Vector ys) = Ok v.
Proof.
  intros _ _ Hl Hn Hc Ha Hb.
  rewrite forward_eq, Hn. unfold forward_value. rewrite Hc, Ha, Hb.
  unfold test_cell. simpl.
  rewrite Hl, Nat.eqb_refl. simpl.
  rewrite length_zip_with, Hl, Nat.min_id, Nat.eqb_refl.
  do 2 eexists. split; [reflexivity|].
  f_equal. f_equal. by apply dot_self_opp.
Qed.

(** * The order of [backward] calls *)

Section BackwardOrder.
Context `{NP : NumPy}.

(** In-place additions to one array can be exchanged: true of exact
    arithmetic (see [ia_iadd_swap] for [IntArrays]), not of rounded
    floating-point sums. *)
Hypothesis iadd_swap : forall s t u x y,
  np_iadd s t = Ok x -> np_iadd x u = Ok y ->
  exists x', np_iadd s u = Ok x' /\ np_iadd x' t = Ok y.

Lemma iadd_d_out_intro (p : node_id) (v : pyarr) (h : heap) (nd : node) (r : pyarr) :
  h !! p = Some nd ->
  rbind (peek d_out h p) (fun c => binop np_iadd c v) = Ok r ->
  iadd_d_out p v h = Ok (tt, <[p := set_d_out r nd]> h).
Proof.
  intros Hp Hr. unfold iadd_d_out. rewrite bind_getattr.
  destruct (peek d_out h p) as [c|]; [simpl in *|discriminate].
  rewrite bind_lift, Hr. simpl. unfold setattr. by rewrite Hp.
Qed.

Lemma peek_d_out_set (h : heap) (p : node_id) (nd : node) (x : ndarray) :
  h !! p = Some nd -> peek d_out (<[p := set_d_out (Some x) nd]> h) p = Ok (Some x).
Proof. intros Hp. unfold peek. by erewrite lookup_insert_same. Qed.

Lemma iadd_d_out_swap (p q : node_id) (v w : pyarr) (h h1 h2 : heap) :
  iadd_d_out p v h = Ok (tt, h1) -> iadd_d_out q w h1 = Ok (tt, h2) ->
  exists h1', iadd_d_out q w h = Ok (tt, h1') /\ iadd_d_out p v h1' = Ok (tt, h2).
Proof.
  intros H1 H2.
  apply iadd_d_out_inv in H1 as (ndp & x & Hp & Hx & ->).
  apply iadd_d_out_inv in H2 as (ndq & y & Hq & Hy & ->).
  destruct (decide (p = q)) as [<-|Hne].
  - erewrite lookup_insert_same in Hq by eassumption. injection Hq as <-.
    rewrite peek_d_out_set in Hy by done. simpl in Hy.
    apply rbind_ok in Hx as (c & Hc & Hx).
    apply binop_ok in Hx as (s & t & x0 & -> & -> & Hst & [= <-]).
    apply binop_ok in Hy as (? & u & y0 & [= <-] & -> & Hxu & [= <-]).
    destruct (iadd_swap _ _ _ _ _ Hst Hxu) as (x' & Hsu & Hx't).
    exists (<[p := set_d_out (Some x') ndp]> h). split.
    + apply iadd_d_out_intro; [done|]. rewrite Hc. simpl. unfold binop. simpl.
      by rewrite Hsu.
    + rewrite (iadd_d_out_intro p (Some t) _ (set_d_out (Some x') ndp) (Some y)).
      * rewrite !list_insert_insert_eq. reflexivity.
      * by eapply lookup_insert_same.
      * rewrite peek_d_out_set by done. simpl. unfold binop. simpl. by rewrite Hx't.
  - rewrite list_lookup_insert_ne in Hq by done.
    rewrite peek_insert_ne in Hy by done.
    exists (<[q := set_d_out (Some y) ndq]> h). split.
    + by apply iadd_d_out_intro.
    + rewrite (iadd_d_out_intro p v _ ndp (Some x)).
      * rewrite list_insert_insert_ne by done. reflexivity.
      * by rewrite list_lookup_insert_ne.
      * by rewrite peek_insert_ne.
Qed.

Lemma accumulate_perm (cs cs' : list (node_id * pyarr)) :
  Permutation cs cs' ->
  forall h h', accumulate cs h = Ok (tt, h') -> accumulate cs' h = Ok (tt, h').
Proof.
  induction 1 as [|[p v] l l' _ IH|[p v] [q w] l|l l' l'' _ IH1 _ IH2]; intros h h' H.
  - done.
  - simpl in *. apply bind_ok in H as ([] & h1 & Hi & H).
    unfold bind. rewrite Hi. by apply IH.
  - simpl in *. apply bind_ok in H as ([] & h1 & Hp & H).
    apply bind_ok in H as ([] & h2 & Hq & H).
    destruct (iadd_d_out_swap _ _ _ _ _ _ _ Hp Hq) as (h1' & Hq' & Hp').
    unfold bind. by rewrite Hq', Hp'.
  - by apply IH2, IH1.
Qed.

Lemma accumulate_app (cs1 cs2 : list (node_id * pyarr)) (h : heap) :
  accumulate (cs1 ++ cs2) h = (run accumulate cs1 then accumulate cs2) h.
Proof.
  revert h. induction cs1 as [|[p v] cs1 IH]; intros h; simpl; [done|].
  unfold bind. destruct (iadd_d_out p v h) as [[[] h1]|]; [|done].
  rewrite IH. reflexivity.
Qed.

Lemma backward_return_frame (c : node_class) (n : node_id) (h h' : heap) (r : pyarr) :
  h' !! n = h !! n ->
  backward_return c n h = Ok (r, h) -> backward_return c n h' = Ok (r, h').
Proof.
  intros Hn. destruct c; simpl; try done.
  all: try (unfold ret; by intros [= <-]).
  all: unfold getattr; rewrite Hn; destruct (h !! n) as [nd|]; try done;
    destruct (d_out nd); [by intros [= <-]|];
    destruct (has_init (cls nd)); [by intros [= <-] | done].
Qed.

(** Where in-place additions to one array can be exchanged, so can the
    [backward] calls on two nodes neither of which is a predecessor of the
    other. *)
Lemma backward_commutes_if_swap (c1 c2 : node_id) (h h1 h2 : heap) (nd1 nd2 : node)
    (r1 r2 : pyarr) :
  h !! c1 = Some nd1 -> h !! c2 = Some nd2 ->
  c1 ∉ pred_nodes (cls nd2) -> c2 ∉ pred_nodes (cls nd1) ->
  backward c1 h = Ok (r1, h1) -> backward c2 h1 = Ok (r2, h2) ->
  exists h1', backward c2 h = Ok (r2, h1') /\ backward c1 h1' = Ok (r1, h2).
Proof.
  intros Hc1 Hc2 Hn12 Hn21 Hb1 Hb2.
  pose proof (backward_frame _ _ _ _ _ Hc1 Hb1) as Hf1.
  destruct (same_but_d_out_lookup _ _ _ _ _ Hf1 Hc2)
    as (nd2' & Hc2' & Hnm & Hcl & Ho & Ham & Hd).
  specialize (Hd Hn21).
  assert (nd2' = nd2) as -> by (destruct nd2, nd2'; simpl in *; congruence).
  pose proof (backward_frame _ _ _ _ _ Hc2' Hb2) as Hf2.
  destruct (backward_inv _ _ _ _ _ Hc1 Hb1) as (cs1 & Hcs1 & Hacc1 & Hr1).
  destruct (backward_inv _ _ _ _ _ Hc2' Hb2) as (cs2 & Hcs2 & Hacc2 & Hr2).
  rewrite <- (local_contributions_ext h h1) in Hcs2
    by (intros; eapply same_but_d_out_peek_out, Hf1).
  assert (accumulate (cs2 ++ cs1) h = Ok (tt, h2)) as Hacc.
  { apply (accumulate_perm (cs1 ++ cs2)); [apply Permutation_app_comm|].
    rewrite accumulate_app. unfold bind. by rewrite Hacc1. }
  rewrite accumulate_app in Hacc. apply bind_ok in Hacc as ([] & h1' & Hacc2' & Hacc1').
  pose proof Hacc2' as Hs2. apply accumulate_inv in Hs2 as [Hs2 _].
  rewrite (local_contributions_targets _ _ _ Hcs2) in Hs2.
  pose proof Hacc1' as Hs1. apply accumulate_inv in Hs1 as [Hs1 _].
  rewrite (local_contributions_targets _ _ _ Hcs1) in Hs1.
  destruct (same_but_d_out_lookup _ _ _ _ _ Hs2 Hc1)
    as (nd1' & Hc1' & Hnm1 & Hcl1 & Ho1 & Ham1 & Hd1).
  specialize (Hd1 Hn12).
  assert (nd1' = nd1) as -> by (destruct nd1, nd1'; simpl in *; congruence).
  assert (forall m (g g' : heap) D, same_but_d_out D g g' -> ~ D m -> g' !! m = g !! m)
    as Hkeep.
  { intros m g g' D Hs Hm. destruct (g !! m) as [x|] eqn:Hx.
    - destruct (same_but_d_out_lookup _ _ _ _ _ Hs Hx) as (x' & Hx' & ? & ? & ? & ? & Hdx).
      rewrite Hx'. f_equal. specialize (Hdx Hm). destruct x, x'; simpl in *; congruence.
    - destruct Hs as [Hl _]. apply lookup_ge_None. rewrite <- Hl. by apply lookup_ge_None. }
  exists h1'. split.
  - rewrite backward_eq, Hc2. unfold bind, lift. rewrite Hcs2, Hacc2'.
    apply (backward_return_frame _ _ h2); [|done].
    symmetry. by apply (Hkeep c2 h1' h2 _ Hs1).
  - rewrite backward_eq, Hc1'. unfold bind, lift.
    rewrite <- (local_contributions_ext h h1') by
      (intros; eapply same_but_d_out_peek_out, Hs2).
    rewrite Hcs1, Hacc1'.
    apply (backward_return_frame _ _ h1); [|done].
    by apply (Hkeep c1 h1 h2 _ Hf2).
Qed.

End BackwardOrder.

(** * In-place addition of integer arrays *)

Lemma zip_add_replicate (l : list Z) (b : Z) :
  zip_with Z.add l (replicate (length l) b) = map (fun x => x + b) l.
Proof. induction l as [|x l IH]; simpl; [done|]. by rewrite IH. Qed.

Lemma zip_add_swap (l bs cs : list Z) :
  zip_with Z.add (zip_with Z.add l cs) bs = zip_with Z.add (zip_with Z.add l bs) cs.
Proof.
  revert bs cs. induction l as [|x l IH]; intros [|b bs] [|c cs]; simpl; try done.
  rewrite IH. f_equal. ring.
Qed.

Lemma ia_iadd_vector (l : list Z) (t : intarr) :
  ia_iadd (Vector l) t =
  match stretch (length l) t with
  | Some bs => Ok (Vector (zip_with Z.add l bs))
  | None => Raise ValueError
  end.
Proof.
  destruct t as [b|l2]; simpl.
  - by rewrite zip_add_replicate.
  - destruct (Nat.eqb (length l) (length l2)); [done|].
    destruct l2 as [|b [|b' l2]]; try done. by rewrite zip_add_replicate.
Qed.

Lemma stretch_length (n : nat) (t : intarr) (bs : list Z) :
  stretch n t = Some bs -> length bs = n.
Proof.
  destruct t as [b|l]; simpl.
  - intros [= <-]. apply length_replicate.
  - destruct (Nat.eqb_spec n (length l)) as [->|_]; [by intros [= <-]|].
    destruct l as [|b [|b' l]]; try done. intros [= <-]. apply length_replicate.
Qed.

Lemma length_zip_add (l bs : list Z) :
  length bs = length l -> length (zip_with Z.add l bs) = length l.
Proof. intros Hl. by rewrite length_zip_with, Hl, Nat.min_id. Qed.

Lemma ia_iadd_shape (s t r : intarr) :
  ia_iadd s t = Ok r -> ia_shape r = ia_shape s.
Proof.
  destruct s as [a|l].
  - destruct t; simpl; [by intros [= <-] | done].
  - rewrite ia_iadd_vector. destruct (stretch (length l) t) as [bs|] eqn:Hbs; [|done].
    intros [= <-]. simpl. f_equal. apply length_zip_add. by eapply stretch_length.
Qed.

Lemma ia_iadd_swap (s t u x y : intarr) :
  ia_iadd s t = Ok x -> ia_iadd x u = Ok y ->
  exists x', ia_iadd s u = Ok x' /\ ia_iadd x' t = Ok y.
Proof.
  destruct s as [a|l].
  - destruct t as [b|]; [|done]. simpl. intros [= <-].
    destruct u as [c|]; [|done]. simpl. intros [= <-].
    eexists. split; [reflexivity|]. simpl. do 2 f_equal. ring.
  - rewrite ia_iadd_vector. destruct (stretch (length l) t) as [bs|] eqn:Hbs; [|done].
    intros [= <-]. rewrite ia_iadd_vector.
    pose proof (stretch_length _ _ _ Hbs) as Hlb.
    rewrite (length_zip_add _ _ Hlb).
    destruct (stretch (length l) u) as [cs|] eqn:Hcs; [|done].
    intros [= <-]. pose proof (stretch_length _ _ _ Hcs) as Hlc.
    exists (Vector (zip_with Z.add l cs)). split.
    + by rewrite ia_iadd_vector, Hcs.
    + rewrite ia_iadd_vector, (length_zip_add _ _ Hlc), Hbs.
      by rewrite zip_add_swap.
Qed.

Lemma add_all_raise (e : exn) (vs : list (pyarr (NP:=IntArrays))) :
  add_all (Raise e) vs = Raise e.
Proof. induction vs as [|v vs IH]; [done|]. by rewrite add_all_cons. Qed.

Lemma add_all_shape (c : result (pyarr (NP:=IntArrays))) (vs : list pyarr) (g : intarr) :
  add_all c vs = Ok (Some g) ->
  exists g0, c = Ok (Some g0) /\ ia_shape g = ia_shape g0.
Proof.
  revert c. induction vs as [|v vs IH]; intros c.
  - unfold add_all. simpl. intros ->. by exists g.
  - rewrite add_all_cons. intros H. apply IH in H as (g1 & Hc & Hg).
    apply rbind_ok in Hc as (cur & -> & Hc).
    apply binop_ok in Hc as (s & t & x & -> & -> & Hx & [= ->]).
    exists s. split; [done|]. rewrite Hg. by eapply ia_iadd_shape.
Qed.

(** X15. The order of [backward] calls on two independent nodes does not
    matter on [small] integer data, on which numpy's in-place additions
    are exact: if neither of two nodes is a predecessor of the other and
    every array of the heap is small, [backward] on one and then the other
    returns the same two values and ends in the same heap as the calls in
    the opposite order, shared predecessors included. *)
Theorem backward_commutes (c1 c2 : node_id) (h h1 h2 : heap) (nd1 nd2 : node)
    (r1 r2 : pyarr) :
  heap_small h = true ->
  h !! c1 = Some nd1 -> h !! c2 = Some nd2 ->
  c1 ∉ pred_nodes (cls nd2) -> c2 ∉ pred_nodes (cls nd1) ->
  backward c1 h = Ok (r1, h1) -> backward c2 h1 = Ok (r2, h2) ->
  exists h1', backward c2 h = Ok (r2, h1') /\ backward c1 h1' = Ok (r1, h2).
Proof.
  intros _. apply (backward_commutes_if_swap (NP:=IntArrays) ia_iadd_swap).
Qed.

(** X14. [backward] keeps the shape invariant: if in a heap every [d_out]
    has the shape of the [out] beside it, the same holds after a [backward]
    call that returns. In-place addition never reshapes its target, so a
    summand of another shape is broadcast into [d_out] or refused. *)
Theorem backward_keeps_shapes (n : node_id) (h h' : heap) (r : pyarr) :
  shapes_agree h -> backward n h = Ok (r, h') -> shapes_agree h'.
Proof.
  intros Hsh Hb m nd' o g Hm Ho Hg.
  assert (exists nd, h !! n = Some nd) as [ndn Hn].
  { rewrite backward_eq in Hb. destruct (h !! n); [eauto | discriminate]. }
  destruct (backward_inv _ _ _ _ _ Hn Hb) as (cs & Hcs & Hacc & _).
  apply accumulate_inv in Hacc as [Hs Hpk].
  destruct (same_but_d_out_lookup _ _ _ _ _ (same_but_d_out_sym _ _ _ Hs) Hm)
    as (nd & Hm0 & _ & Hc & Hout & _).
  specialize (Hpk m). unfold peek at 1 in Hpk. rewrite Hm, Hg in Hpk.
  symmetry in Hpk. apply add_all_shape in Hpk as (g0 & Hg0 & Hshape).
  rewrite Hshape. apply (Hsh m nd o g0); [done | congruence |].
  unfold peek in Hg0. rewrite Hm0 in Hg0.
  destruct (d_out nd) as [t|]; [by injection Hg0 as -> |].
  by destruct (has_init (cls nd)).
Qed.

(** * Instances of the further properties *)

(** [forward] on the distance node writes object 2 only. *)
Lemma forward_only_updates_self_witness :
  length dist_forwarded = length dist_heap /\
  (forall m, m <> 2%nat -> dist_forwarded !! m = dist_heap !! m) /\
  exists nd nd', dist_heap !! 2%nat = Some nd /\ dist_forwarded !! 2%nat = Some nd' /\
                 node_name nd' = node_name nd /\ cls nd' = cls nd.
Proof.
  apply (forward_only_updates_self (NP:=IntArrays) 2%nat dist_heap dist_forwarded
           (Some (Scalar 34))).
  reflexivity.
Defined.

(** X2. [forward] on an operator node one of whose predecessors has not
    been evaluated ([out] is [None]) raises an exception, when every other
    predecessor's [out] is an array with at least one element. *)
Theorem forward_needs_outs (n p : node_id) (h : heap) (nd : node) :
  h !! n = Some nd -> p ∈ pred_nodes (cls nd) ->
  peek out h p = Ok None ->
  (forall q, q ∈ pred_nodes (cls nd) -> q <> p ->
     exists t, peek out h q = Ok (Some t) /\ ia_nonempty t = true) ->
  exists e, forward n h = Raise e.
Proof.
  intros Hn Hp Hnone _.
  destruct (forward n h) as [[r h']|e] eqn:Hf; [|by exists e].
  exfalso. apply forward_ok_reads_arrays in Hf as (nd' & Hn' & _ & Hall).
  rewrite Hn in Hn'. injection Hn' as <-.
  destruct (Hall p Hp) as [t Ht]. rewrite Hnone in Ht. discriminate.
Qed.

(** [forward] on the sum of an unassigned leaf and [[1,2]]. *)
Lemma forward_needs_outs_witness : exists e, forward 2%nat unset_heap = Raise e.
Proof.
  apply (forward_needs_outs 2%nat 0%nat unset_heap unset_sum).
  - reflexivity.
  - apply list_elem_of_here.
  - reflexivity.
  - intros q Hq Hne.
    apply elem_of_cons in Hq as [->|Hq]; [done|].
    apply elem_of_cons in Hq as [->|Hq]; [|by apply elem_of_nil in Hq].
    exists (Vector [1; 2]). by split.
Defined.

(** [backward] on the distance node before its first [forward]. *)
Lemma backward_before_forward_raises_witness :
  exists e, backward 2%nat dist_heap = Raise e.
Proof.
  apply (backward_before_forward_raises (NP:=IntArrays) 2%nat dist_heap dist_d).
  - reflexivity.
  - reflexivity.
  - discriminate.
Defined.

(** [forward] on the distance node again, after the seed and [backward]. *)
Lemma forward_restores_node_witness :
  exists h3, forward 2%nat dist_cycled = Ok (Some (Scalar 34), h3) /\
             h3 !! 2%nat = dist_forwarded !! 2%nat /\
             forall m, m <> 2%nat -> h3 !! m = dist_cycled !! m.
Proof.
  apply (forward_restores_node (NP:=IntArrays) (fun _ => True) 2%nat
           dist_heap dist_forwarded dist_cycled (Some (Scalar 34))).
  - reflexivity.
  - intros nd [= <-]. simpl. intros H.
    apply elem_of_cons in H as [H|H]; [discriminate|].
    apply elem_of_cons in H as [H|H]; [discriminate|].
    by apply elem_of_nil in H.
  - apply (same_but_d_out_trans _ _
             (<[2%nat := set_d_out (NP:=IntArrays) (Some (Scalar 1)) dist_d_forwarded]>
                dist_forwarded)).
    + eapply same_but_d_out_mono; [|by apply set_d_out_same_but]. done.
    + eapply same_but_d_out_mono;
        [|apply (backward_frame 2%nat _ dist_cycled dist_d_seeded (Some (Scalar 1)));
          reflexivity].
      done.
Defined.

(** [forward] on [pred] and [reg] of the ridge graph, in both orders. *)
Lemma forward_commutes_witness :
  exists h1', forward 6%nat ridge_leaves = Ok (Some (Scalar 13), h1') /\
              forward 4%nat h1' = Ok (Some (Scalar 7), ridge_leaves_pred_reg).
Proof.
  apply (forward_commutes (NP:=IntArrays) 4%nat 6%nat ridge_leaves ridge_leaves_pred
           ridge_leaves_pred_reg ridge_pred_new ridge_reg_new
           (Some (Scalar 7)) (Some (Scalar 13))).
  - reflexivity.
  - reflexivity.
  - discriminate.
  - simpl. intros H. apply elem_of_cons in H as [H|H]; [discriminate|].
    by apply elem_of_nil in H.
  - simpl. intros H.
    apply elem_of_cons in H as [H|H]; [discriminate|].
    apply elem_of_cons in H as [H|H]; [discriminate|].
    apply elem_of_cons in H as [H|H]; [discriminate|].
    by apply elem_of_nil in H.
  - reflexivity.
  - reflexivity.
Defined.

(** One cycle over the ridge graph. *)
Lemma run_cycle_keeps_leaves_witness :
  length ridge_cycled = length ridge_heap /\
  forall p nd, ridge_heap !! p = Some nd ->
    exists nd1, ridge_cycled !! p = Some nd1 /\ node_name nd1 = node_name nd /\
                cls nd1 = cls nd /\ (cls nd = ValueNode -> out nd1 = out nd).
Proof.
  apply (run_cycle_keeps_leaves (NP:=IntArrays) ridge_order 7%nat (Scalar 1)
           ridge_heap ridge_cycled).
  reflexivity.
Defined.

(** The distance of [[1,2,3]] and [[4,5,7]], moved by [[1,0,-1]]. *)
Lemma squared_distance_gradient_witness :
  exists v da db,
    v = sqnorm (zip_with Z.sub [1; 2; 3] [4; 5; 7]) /\
    da = map (Z.mul 2) (zip_with Z.sub [1; 2; 3] [4; 5; 7]) /\
    db = map (Z.mul (-2)) (zip_with Z.sub [1; 2; 3] [4; 5; 7]) /\
    (exists h, squared_distance_run (Vector [1; 2; 3]) (Vector [4; 5; 7]) [] =
               Ok ((Some (Scalar v), Some (Vector da), Some (Vector db)), h)) /\
    (exists ga gb h,
       squared_distance_run (Vector (vadd [1; 2; 3] [1; 0; -1])) (Vector [4; 5; 7]) [] =
       Ok ((Some (Scalar (v + dot da [1; 0; -1] + sqnorm [1; 0; -1])), ga, gb), h)) /\
    (exists ga gb h,
       squared_distance_run (Vector [1; 2; 3]) (Vector (vadd [4; 5; 7] [1; 0; -1])) [] =
       Ok ((Some (Scalar (v + dot db [1; 0; -1] + sqnorm [1; 0; -1])), ga, gb), h)).
Proof.
  apply (squared_distance_gradient [1; 2; 3] [4; 5; 7] [1; 0; -1]); reflexivity.
Defined.

Lemma affine_gradient_witness :
  exists v,
    v = dot [1; 0] [2; 3] + 5 /\
    (exists h, affine_run (Vector [1; 0]) (Vector [2; 3]) (Scalar 5) [] =
               Ok ((Some (Scalar v), Some (Vector [2; 3]), Some (Vector [1; 0]),
                    Some (Scalar 1)), h)) /\
    (exists gx gw gb h,
       affine_run (Vector (vadd [1; 0] [4; -1])) (Vector [2; 3]) (Scalar 5) [] =
       Ok ((Some (Scalar (v + dot [2; 3] [4; -1])), gx, gw, gb), h)) /\
    (exists gx gw gb h,
       affine_run (Vector [1; 0]) (Vector (vadd [2; 3] [4; -1])) (Scalar 5) [] =
       Ok ((Some (Scalar (v + dot [1; 0] [4; -1])), gx, gw, gb), h)) /\
    (exists gx gw gb h,
       affine_run (Vector [1; 0]) (Vector [2; 3]) (Scalar (5 + 7)) [] =
       Ok ((Some (Scalar (v + 1 * 7)), gx, gw, gb), h)).
Proof.
  apply (affine_gradient [1; 0] [2; 3] [4; -1] 5 7); reflexivity.
Defined.

Lemma l2_penalty_gradient_witness :
  (exists h, l2_penalty_scenario 3 [1; 2] [] =
             Ok ((Some (Scalar (sqnorm [1; 2])), Some (Scalar (sqnorm [1; 2])),
                  Some (Vector (map (Z.mul 2) [1; 2]))), h)) /\
  (exists gw h, l2_penalty_scenario 3 (vadd [1; 2] [5; -5]) [] =
             Ok ((Some (Scalar (sqnorm [1; 2] + dot (map (Z.mul 2) [1; 2]) [5; -5]
                                + sqnorm [5; -5])),
                  Some (Scalar (sqnorm [1; 2] + dot (map (Z.mul 2) [1; 2]) [5; -5]
                                + sqnorm [5; -5])),
                  gw), h)).
Proof.
  apply (l2_penalty_gradient 3 [1; 2] [5; -5]); reflexivity.
Defined.

Lemma sum_gradient_witness :
  exists h,
    sum_run (Vector [1; 2]) (Vector [10; 20]) (Vector [3; 4]) [] =
    Ok ((Some (Vector (zip_with Z.add [1; 2] [10; 20])), Some (Vector [3; 4]),
         Some (Vector [3; 4])), h).
Proof.
  apply (sum_gradient [1; 2] [10; 20] [3; 4]); reflexivity.
Defined.

Lemma sum_broadcast_backward_raises_witness :
  (exists h, sum_forward_run (Vector [1; 2; 3]) (Scalar 10) [] =
             Ok (Some (Vector (map (fun x => x + 10) [1; 2; 3])), h)) /\
  sum_run (Vector [1; 2; 3]) (Scalar 10) (Vector [1; 1; 1]) [] = Raise ValueError.
Proof.
  apply (sum_broadcast_backward_raises [1; 2; 3] [1; 1; 1] 10); reflexivity.
Defined.

Lemma affine_length_mismatch_raises_witness :
  affine_run (Vector [1; 0]) (Vector [2; 3; 4]) (Scalar 5) [] = Raise ValueError.
Proof.
  apply (affine_length_mismatch_raises [1; 0] [2; 3; 4] (Scalar 5)). discriminate.
Defined.

(** The cell as run in the notebook, whose recorded output is 34, and
    [forward] on the distance node over the same two vectors. *)
Lemma test_cell_agrees_with_forward_witness :
  exists v h', forward 2%nat dist_heap = Ok (Some v, h') /\
               test_cell (Vector [1; 2; 3]) (Vector [4; 5; 7]) = Ok v.
Proof.
  apply (test_cell_agrees_with_forward 2%nat 0%nat 1%nat dist_heap dist_d
           [1; 2; 3] [4; 5; 7]); reflexivity.
Defined.

Example test_cell_output :
  test_cell (Vector [1; 2; 3]) (Vector [4; 5; 7]) = Ok (Scalar 34).
Proof. reflexivity. Qed.

Lemma ridge_before_shapes : shapes_agree ridge_before.
Proof.
  intros m nd o g Hm Ho Hg.
  do 8 (destruct m as [|m];
        [injection Hm as <-; injection Ho as <-; injection Hg as <-; reflexivity|]).
  discriminate.
Qed.

(** [backward] on [reg] in the ridge graph. *)
Lemma backward_keeps_shapes_witness : shapes_agree ridge_after_reg.
Proof.
  apply (backward_keeps_shapes 6%nat ridge_before ridge_after_reg (Some (Scalar 1))).
  - exact ridge_before_shapes.
  - reflexivity.
Defined.

(** [backward] on [reg] and [pred], the two consumers of [w], in both
    orders. *)
Lemma backward_commutes_witness :
  exists h1', backward 4%nat ridge_before = Ok (None, h1') /\
              backward 6%nat h1' = Ok (Some (Scalar 1), ridge_after_pred).
Proof.
  apply (backward_commutes 6%nat 4%nat
           ridge_before ridge_after_reg ridge_after_pred ridge_reg ridge_pred
           (Some (Scalar 1)) None).
  - reflexivity.
  - reflexivity.
  - reflexivity.
  - simpl. intros H.
    apply elem_of_cons in H as [H|H]; [discriminate|].
    apply elem_of_cons in H as [H|H]; [discriminate|].
    apply elem_of_cons in H as [H|H]; [discriminate|].
    by apply elem_of_nil in H.
  - simpl. intros H. apply elem_of_cons in H as [H|H]; [discriminate|].
    by apply elem_of_nil in H.
  - reflexivity.
  - reflexivity.
Defined.

(** * Constructors and the predecessor list *)

Section PredecessorList.
Context `{NP : NumPy}.

Lemma lookup_alloc (h : heap) (nd : node) : (h ++ [nd]) !! length h = Some nd.
Proof. by rewrite lookup_app_r, Nat.sub_diag. Qed.

(** X16. A leaf whose value was never assigned cannot be evaluated:
    [forward] on a [ValueNode] straight after its construction raises
    [AttributeError] (its [out] is [None], which has no [shape]). *)
Theorem fresh_leaf_forward_raises (name : string) (h : heap) :
  (let* n := new_ValueNode name in forward n) h = Raise AttributeError.
Proof.
  unfold bind, new_ValueNode, alloc. rewrite forward_eq, lookup_alloc. reflexivity.
Qed.

Lemma pred_nodes_listed (c : node_class) (l : list pyval) (m : node_id) :
  get_predecessors c = Ok l -> m ∈ pred_nodes c -> VNode m ∈ l.
Proof.
  destruct c; simpl; try done; intros [= <-] Hm;
    repeat (apply elem_of_cons in Hm as [->|Hm]; [by repeat constructor|]);
    by apply elem_of_nil in Hm.
Qed.

(** X18. [backward] writes only to nodes that [get_predecessors] lists: an
    object that is not a node entry of the list returned by
    [get_predecessors] is the same before and after the call. *)
Theorem backward_writes_listed_only (n : node_id) (h h' : heap) (nd : node)
    (r : pyarr) (l : list pyval) :
  h !! n = Some nd -> get_predecessors (cls nd) = Ok l ->
  backward n h = Ok (r, h') ->
  forall m, VNode m ∉ l -> h' !! m = h !! m.
Proof.
  intros Hn Hl Hb m Hm.
  pose proof (backward_frame _ _ _ _ _ Hn Hb) as Hs.
  assert (m ∉ pred_nodes (cls nd)) as Hnp.
  { intros Hin. apply Hm. by eapply pred_nodes_listed. }
  destruct (h !! m) as [x|] eqn:Hx.
  - destruct (same_but_d_out_lookup _ _ _ _ _ Hs Hx) as (x' & Hx' & ? & ? & ? & ? & Hd).
    rewrite Hx'. f_equal. specialize (Hd Hnp). destruct x, x'; simpl in *; congruence.
  - destruct Hs as [Hlen _]. apply lookup_ge_None. rewrite <- Hlen. by apply lookup_ge_None.
Qed.

(** X19. [forward] reads only nodes that [get_predecessors] lists: in any
    other heap that holds the same object, up to its [d_out], and gives the
    same [out] to every node entry of the list returned by
    [get_predecessors], [forward] returns the same value and leaves the
    object in the same state. *)
Theorem forward_reads_listed_only (n : node_id) (h h1 h' : heap) (nd : node)
    (r g : pyarr) (l : list pyval) :
  h !! n = Some nd -> get_predecessors (cls nd) = Ok l ->
  forward n h = Ok (r, h1) ->
  h' !! n = Some (set_d_out g nd) ->
  (forall m, VNode m ∈ l -> peek out h' m = peek out h m) ->
  exists h1', forward n h' = Ok (r, h1') /\ h1' !! n = h1 !! n.
Proof.
  intros Hn Hl Hf Hn' Hout.
  apply forward_ok_inv in Hf as (nd0 & o & am & Hn0 & Hv & -> & ->).
  rewrite Hn in Hn0. injection Hn0 as <-.
  exists (<[n := forwarded nd o am]> h'). split.
  - rewrite forward_eq, Hn'.
    rewrite (forward_value_ext h' h (set_d_out g nd) nd); try done.
    + by rewrite Hv.
    + intros p Hp. apply Hout. by eapply pred_nodes_listed.
  - by erewrite !lookup_insert_same.
Qed.

End PredecessorList.

(** [backward] on [reg] of the ridge graph leaves the leaf [x] alone. *)
Lemma backward_writes_listed_only_witness :
  ridge_after_reg !! 0%nat = ridge_before !! 0%nat.
Proof.
  apply (backward_writes_listed_only (NP:=IntArrays) 6%nat ridge_before ridge_after_reg
           ridge_reg (Some (Scalar 1)) [VNode 1%nat; VScalar 1]).
  - reflexivity.
  - reflexivity.
  - reflexivity.
  - intros H.
    apply elem_of_cons in H as [H|H]; [discriminate|].
    apply elem_of_cons in H as [H|H]; [discriminate|].
    by apply elem_of_nil in H.
Defined.

Lemma forward_reads_listed_only_witness :
  exists h1', forward 2%nat dist_cycled = Ok (Some (Scalar 34), h1') /\
              h1' !! 2%nat = dist_forwarded !! 2%nat.
Proof.
  apply (forward_reads_listed_only (NP:=IntArrays) 2%nat dist_forwarded dist_forwarded
           dist_cycled dist_d_forwarded (Some (Scalar 34)) (Some (Scalar 1))
           [VNode 0%nat; VNode 1%nat]).
  - reflexivity.
  - reflexivity.
  - reflexivity.
  - reflexivity.
  - intros m Hm.
    apply elem_of_cons in Hm as [[= ->]|Hm]; [reflexivity|].
    apply elem_of_cons in Hm as [[= ->]|Hm]; [reflexivity|].
    by apply elem_of_nil in Hm.
Defined.
